(** * Video-Simulation-System: a shallow embedding of the entity model

    The development follows [video.h] / [video.cpp] (OpStatus, OpResult,
    IdGen, Comment, Video, Channel, Playlist), [user.h] / [user.cpp] (User)
    and the search branch of [main.cpp].

    Conventions.
    - [long long] is a [Z] kept in the 64-bit two's-complement range; the
      wrap-around of an increment is written out with [wrap64].  For the
      atomic counter of [IdGen] the C++ standard defines exactly this
      wrap-around.  For the plain [long long] and [int] members ([views],
      [likes]) an overflowing increment has no defined behaviour in C++;
      the model wraps there as the usual targets do, and the theorems that
      depend on such an increment say that the counter is below its maximum.
    - [std::string] is [string]; [unordered_set<string>] is [gset string];
      [unordered_map<K,V>] is [gmap K V]; [vector<T>] is [list T].
    - A member function that mutates its object returns the new object next
      to its result.  A [Video*] argument that may be null is an [option].
    - The process-wide counter of [IdGen] and the reading of the system
      clock are passed explicitly.
    - [PerfTimer] and [Logger] only write diagnostics to the console; they
      touch no entity and are left out. *)

From Stdlib Require Import ZArith String Ascii List Lia Sorted DecimalString.
From stdpp Require Import base gmap strings list.
Import ListNotations.

Local Open Scope Z_scope.
Local Open Scope string_scope.

(** ** Machine integers *)

Definition LLONG_MAX : Z := 9223372036854775807.
Definition LLONG_MIN : Z := -9223372036854775808.

(** Two's-complement reduction to 64 and to 32 bits. *)
Definition wrap64 (z : Z) : Z := (z + 2 ^ 63) mod 2 ^ 64 - 2 ^ 63.
Definition wrap32 (z : Z) : Z := (z + 2 ^ 31) mod 2 ^ 32 - 2 ^ 31.

Definition in_int64 (z : Z) : Prop := LLONG_MIN <= z <= LLONG_MAX.

(** ** Strings *)

(** The double-quote character and the newline, built from their codes. *)
Definition dquote : string := String (ascii_of_nat 34) EmptyString.
Definition newline : string := String (ascii_of_nat 10) EmptyString.

(** [std::to_string] on an integer: decimal digits, a leading minus sign
    for a negative number. *)
Definition to_string (z : Z) : string := NilZero.string_of_int (Z.to_int z).

(** ** OpStatus and OpResult *)

Inductive OpStatus : Set :=
| SUCCESS
| NOT_FOUND
| ALREADY_EXISTS
| PERMISSION_DENIED
| INVALID_INPUT
| NOT_LOGGED_IN.

#[global] Instance OpStatus_eq_dec : EqDecision OpStatus.
Proof. solve_decision. Defined.

Module OpResult.
Record t : Set := mk { status : OpStatus; message : string; id : Z }.

(** The constructor's default for the identifier is [-1]. *)
Definition make (s : OpStatus) (m : string) : t := mk s m (-1).

Definition isSuccess (r : t) : bool := bool_decide (status r = SUCCESS).
End OpResult.

(** ** IdGen *)

Module IdGen.
(** The state is the value of the static atomic counter, [0] at process
    start. *)
Definition init : Z := 0.

(** [++counter]: the incremented value is both stored and returned. *)
Definition next (counter : Z) : Z * Z :=
  let c := wrap64 (counter + 1) in (c, c).

(** The counter after [n] calls. *)
Definition after (n : N) (counter : Z) : Z :=
  N.iter n (fun c => snd (next c)) counter.
End IdGen.

(** ** Comment *)

Module Comment.
Record t : Set := mk {
  id : Z;
  author : string;
  text : string;
  likes : Z;
  ts : Z
}.

(** [Comment(a, t)]: the identifier is minted first, [now] is the clock
    reading in milliseconds. *)
Definition make (a tx : string) (now : Z) (counter : Z) : t * Z :=
  let '(i, counter') := IdGen.next counter in
  (mk i a tx 0 now, counter').

Definition like (c : t) : t :=
  mk (id c) (author c) (text c) (wrap32 (likes c + 1)) (ts c).
End Comment.

(** ** Video *)

Module Video.
Record t : Set := mk {
  id : Z;
  title : string;
  uploader : string;
  durationSec : Z;
  views : Z;
  playing : bool;
  comments : list Comment.t
}.

(** [Video(t, u, d)], the only constructor the program calls: the
    defaulted [Video()] initialises no member and is used nowhere. *)
Definition make (ti u : string) (d : Z) (counter : Z) : t * Z :=
  let '(i, counter') := IdGen.next counter in
  (mk i ti u d 0 false [], counter').

Definition set_playback (v : t) (vw : Z) (p : bool) : t :=
  mk (id v) (title v) (uploader v) (durationSec v) vw p (comments v).

Definition set_comments (v : t) (cs : list Comment.t) : t :=
  mk (id v) (title v) (uploader v) (durationSec v) (views v) (playing v) cs.

Definition play (v : t) : t * OpResult.t :=
  if negb (playing v) then
    let v' := set_playback v (wrap64 (views v + 1)) true in
    (v', OpResult.make SUCCESS
           ("Playing " ++ dquote ++ title v ++ dquote ++ " (views: "
              ++ to_string (views v') ++ ")"))
  else
    (v, OpResult.make ALREADY_EXISTS
          ("Already playing " ++ dquote ++ title v ++ dquote)).

Definition pause (v : t) : t * OpResult.t :=
  if playing v then
    (set_playback v (views v) false,
     OpResult.make SUCCESS ("Paused " ++ dquote ++ title v ++ dquote))
  else
    (v, OpResult.make INVALID_INPUT
          ("Not playing " ++ dquote ++ title v ++ dquote)).

(** [comments.emplace_back(user, text)] and the identifier of the new
    last element. *)
Definition addComment (user tx : string) (now : Z) (v : t) (counter : Z)
  : t * Z * OpResult.t :=
  let '(c, counter') := Comment.make user tx now counter in
  (set_comments v (comments v ++ [c]), counter',
   OpResult.mk SUCCESS ("Comment added by " ++ user) (Comment.id c)).

(** The loop of [likeComment]: the first comment with the identifier is
    liked; [None] when the loop runs to the end. *)
Fixpoint likeComment_loop (cid : Z) (cs : list Comment.t)
  : option (list Comment.t * Z) :=
  match cs with
  | [] => None
  | c :: rest =>
      if (Comment.id c =? cid)%Z then
        let c' := Comment.like c in Some (c' :: rest, Comment.likes c')
      else
        match likeComment_loop cid rest with
        | Some (rest', n) => Some (c :: rest', n)
        | None => None
        end
  end.

Definition likeComment (cid : Z) (v : t) : t * OpResult.t :=
  match likeComment_loop cid (comments v) with
  | Some (cs, n) =>
      (set_comments v cs,
       OpResult.make SUCCESS
         ("Liked comment " ++ to_string cid ++ " (likes=" ++ to_string n ++ ")"))
  | None => (v, OpResult.make NOT_FOUND "Comment not found")
  end.

(** The loop of [removeComment]: it stops at the first comment with the
    identifier, erases it when the requester is its author or the channel
    owner, and reports [PERMISSION_DENIED] otherwise. *)
Fixpoint removeComment_loop (cid : Z) (requester channelOwner : string)
    (cs : list Comment.t) : list Comment.t * OpResult.t :=
  match cs with
  | [] => ([], OpResult.make NOT_FOUND "Comment not found")
  | c :: rest =>
      if (Comment.id c =? cid)%Z then
        if String.eqb requester (Comment.author c)
           || String.eqb requester channelOwner
        then (rest, OpResult.make SUCCESS "Comment removed")
        else (c :: rest, OpResult.make PERMISSION_DENIED "Permission denied")
      else
        let '(rest', r) := removeComment_loop cid requester channelOwner rest in
        (c :: rest', r)
  end.

Definition removeComment (cid : Z) (requester channelOwner : string) (v : t)
  : t * OpResult.t :=
  let '(cs, r) := removeComment_loop cid requester channelOwner (comments v) in
  (set_comments v cs, r).
End Video.

(** ** Channel *)

Module Channel.
Record t : Type := mk {
  name : string;
  owner : string;
  description : string;
  uploads : list Video.t;
  subscribers : gset string
}.

(** [Channel(n, o, d)]. *)
Definition make (n o d : string) : t := mk n o d [] ∅.

Definition set_subscribers (ch : t) (s : gset string) : t :=
  mk (name ch) (owner ch) (description ch) (uploads ch) s.

(** The new video carries the channel's name as its uploader; the
    returned video is the one pushed at the back of [uploads]. *)
Definition upload (ti : string) (dur : Z) (ch : t) (counter : Z)
  : t * Video.t * Z :=
  let '(v, counter') := Video.make ti (name ch) dur counter in
  (mk (name ch) (owner ch) (description ch) (uploads ch ++ [v]) (subscribers ch),
   v, counter').

(** [subscribers.insert(user).second] is true exactly when the name was
    not in the set. *)
Definition subscribe (user : string) (ch : t) : t * OpResult.t :=
  let inserted := negb (bool_decide (user ∈ subscribers ch)) in
  let ch' := set_subscribers ch ({[user]} ∪ subscribers ch) in
  if inserted then
    (ch', OpResult.make SUCCESS (user ++ " subscribed to " ++ name ch))
  else
    (ch, OpResult.make ALREADY_EXISTS (user ++ " already subscribed")).

(** [subscribers.erase(user)] is the number of elements removed. *)
Definition unsubscribe (user : string) (ch : t) : t * OpResult.t :=
  let erased := bool_decide (user ∈ subscribers ch) in
  let ch' := set_subscribers ch (subscribers ch ∖ {[user]}) in
  if erased then
    (ch', OpResult.make SUCCESS (user ++ " unsubscribed from " ++ name ch))
  else
    (ch, OpResult.make NOT_FOUND (user ++ " was not subscribed")).
End Channel.

(** ** Playlist *)

Module Playlist.
Record t : Set := mk { name : string; videoIds : list Z }.

Definition make (n : string) : t := mk n [].

Definition add (videoId : Z) (videoTitle : string) (p : t) : t :=
  mk (name p) (videoIds p ++ [videoId]).

(** What [show] writes to the console is kept as the list of its lines,
    each one ended by its newline. *)
Definition header_line (p : t) : string := "Playlist: " ++ name p ++ newline.
Definition empty_line : string := "  (empty)" ++ newline.
Definition entry_line (i : nat) (v : Video.t) : string :=
  "  [" ++ to_string (Z.of_nat (i + 1)) ++ "] " ++ Video.title v
    ++ " (id=" ++ to_string (Video.id v) ++ ")" ++ newline.

(** The [for] loop over the indices [i], [i+1], ... of [videoIds]. *)
Fixpoint show_loop (videoMap : gmap Z Video.t) (i : nat) (ids : list Z)
  : list string :=
  match ids with
  | [] => []
  | vid :: rest =>
      match videoMap !! vid with
      | Some v => entry_line i v :: show_loop videoMap (S i) rest
      | None => show_loop videoMap (S i) rest
      end
  end.

Definition show (videoMap : gmap Z Video.t) (p : t) : list string :=
  header_line p ::
  match videoIds p with
  | [] => [empty_line]
  | _ :: _ => show_loop videoMap 0 (videoIds p)
  end.
End Playlist.

(** ** User *)

Module User.
Record t : Type := mk {
  username : string;
  subscriptions : gset string;
  historyIds : list Z;
  playlists : gmap string Playlist.t
}.

(** [User(n)]. *)
Definition make (n : string) : t := mk n ∅ [] ∅.

Definition watch (v : option Video.t) (u : t)
  : t * option Video.t * OpResult.t :=
  match v with
  | None => (u, None, OpResult.make NOT_FOUND "Video not found")
  | Some vd =>
      let u' := mk (username u) (subscriptions u)
                   (historyIds u ++ [Video.id vd]) (playlists u) in
      let '(vd', r) := Video.play vd in
      (u', Some vd', r)
  end.

Definition addComment (v : option Video.t) (tx : string) (now : Z)
    (u : t) (counter : Z) : option Video.t * Z * OpResult.t :=
  match v with
  | None => (None, counter, OpResult.make NOT_FOUND "Video not found")
  | Some vd =>
      let '(vd', counter', r) := Video.addComment (username u) tx now vd counter in
      (Some vd', counter', r)
  end.

Definition likeComment (v : option Video.t) (cid : Z) (u : t)
  : option Video.t * OpResult.t :=
  match v with
  | None => (None, OpResult.make NOT_FOUND "Video not found")
  | Some vd =>
      let '(vd', r) := Video.likeComment cid vd in (Some vd', r)
  end.

Definition createPlaylist (pname : string) (u : t) : t * OpResult.t :=
  match playlists u !! pname with
  | Some _ => (u, OpResult.make ALREADY_EXISTS "Playlist exists")
  | None =>
      (mk (username u) (subscriptions u) (historyIds u)
          (<[pname := Playlist.make pname]> (playlists u)),
       OpResult.make SUCCESS ("Created playlist " ++ dquote ++ pname ++ dquote))
  end.

Definition getPlaylist (pname : string) (u : t) : option Playlist.t :=
  playlists u !! pname.

Definition subscribeChannel (ch : Channel.t) (u : t)
  : t * Channel.t * OpResult.t :=
  let inserted := negb (bool_decide (Channel.name ch ∈ subscriptions u)) in
  let u' := mk (username u) ({[Channel.name ch]} ∪ subscriptions u)
               (historyIds u) (playlists u) in
  if inserted then
    let '(ch', r) := Channel.subscribe (username u) ch in (u', ch', r)
  else
    (u, ch, OpResult.make ALREADY_EXISTS "Already subscribed").
End User.

(** ** Search by title (the branch [cmd == 11] of [main]) *)

(** [::tolower] in the C locale (the program never sets another one): the
    letters [A]..[Z] move to [a]..[z], every other byte is left as it
    is. *)
Definition tolower (c : ascii) : ascii :=
  let n := N_of_ascii c in
  if ((65 <=? n) && (n <=? 90))%N then ascii_of_N (n + 32) else c.

(** [std::transform(s.begin(), s.end(), s.begin(), f)]. *)
Fixpoint transform (f : ascii -> ascii) (s : string) : string :=
  match s with
  | EmptyString => EmptyString
  | String c s' => String (f c) (transform f s')
  end.

(** Whether [needle] is read at the start of [hay]: the comparison that
    [find] makes at each position. *)
Fixpoint starts_with (needle hay : string) : bool :=
  match needle, hay with
  | EmptyString, _ => true
  | String _ _, EmptyString => false
  | String a needle', String b hay' => Ascii.eqb a b && starts_with needle' hay'
  end.

(** [hay.find(needle)]: the first position at which [needle] starts in
    [hay]; [None] stands for [string::npos]. *)
Fixpoint find_from (needle hay : string) (pos : nat) : option nat :=
  if starts_with needle hay then Some pos
  else match hay with
       | EmptyString => None
       | String _ hay' => find_from needle hay' (S pos)
       end.

Definition find (needle hay : string) : option nat := find_from needle hay 0.

Definition title_matches (low : string) (v : Video.t) : bool :=
  let tl := transform tolower (Video.title v) in
  bool_decide (find low tl ≠ None).

(** The entries of the registry for which a result line is printed, in the
    order in which the registry is traversed. *)
Definition search (q : string) (videos : gmap Z Video.t) : list (Z * Video.t) :=
  let low := transform tolower q in
  List.filter (fun p => title_matches low (snd p)) (map_to_list videos).

(** ** Histories of minting operations *)

(** The operations that create or destroy identified entities, applied to
    the videos of the process (in upload order) and to the counter. *)
Inductive Event : Set :=
| EvNewVideo (ti u : string) (dur : Z)
| EvAddComment (k : nat) (user tx : string) (now : Z)
| EvRemoveComment (k : nat) (cid : Z) (requester channelOwner : string).

Record World : Set := mkWorld { counter : Z; videos : list Video.t }.

Definition World_init : World := mkWorld IdGen.init [].

(** One operation; the second component is the identifier it minted, if
    any.  An operation on a video that does not exist is never issued by
    the caller and changes nothing here. *)
Definition step (e : Event) (w : World) : World * option Z :=
  match e with
  | EvNewVideo ti u dur =>
      let '(v, c') := Video.make ti u dur (counter w) in
      (mkWorld c' (videos w ++ [v]), Some (Video.id v))
  | EvAddComment k user tx now =>
      match videos w !! k with
      | Some v =>
          let '(v', c', r) := Video.addComment user tx now v (counter w) in
          (mkWorld c' (<[k := v']> (videos w)), Some (OpResult.id r))
      | None => (w, None)
      end
  | EvRemoveComment k cid requester channelOwner =>
      match videos w !! k with
      | Some v =>
          let '(v', _) := Video.removeComment cid requester channelOwner v in
          (mkWorld (counter w) (<[k := v']> (videos w)), None)
      | None => (w, None)
      end
  end.

(** A history, with the identifiers minted along it in order. *)
Fixpoint run (es : list Event) (w : World) : World * list Z :=
  match es with
  | [] => (w, [])
  | e :: es' =>
      let '(w1, o) := step e w in
      let '(w2, ids) := run es' w1 in
      (w2, match o with Some i => i :: ids | None => ids end)
  end.

(** Every identifier carried by an entity of the world: the videos' and
    their comments'. *)
Definition Video_ids (v : Video.t) : list Z :=
  Video.id v :: map Comment.id (Video.comments v).

Definition World_ids (w : World) : list Z :=
  concat (map Video_ids (videos w)).

(** Whether an operation constructs an entity. *)
Definition mints (e : Event) : bool :=
  match e with
  | EvNewVideo _ _ _ | EvAddComment _ _ _ _ => true
  | EvRemoveComment _ _ _ _ => false
  end.

(** The number of constructions in a history. *)
Definition creations (es : list Event) : nat := length (List.filter mints es).

(** The history of [n] uploads. *)
Definition uploads_history (n : N) : list Event :=
  N.iter n (cons (EvNewVideo EmptyString EmptyString 0)) [].

(** What holds of every world the operations can reach: the counter is a
    64-bit value, no entity carries an identifier above it, and no two
    entities carry the same one. *)
Definition World_ok (w : World) : Prop :=
  in_int64 (counter w) /\
  (forall i, i ∈ World_ids w -> i <= counter w) /\
  NoDup (World_ids w).

(** ** Playback states and sequences of playback calls *)

Inductive PlaybackState : Set := Paused | Playing.

(** The state is read off the [playing] flag. *)
Definition playback (v : Video.t) : PlaybackState :=
  if Video.playing v then Playing else Paused.

Inductive PlaybackCall : Set := CallPlay | CallPause.

Definition call (c : PlaybackCall) (v : Video.t) : Video.t * OpResult.t :=
  match c with
  | CallPlay => Video.play v
  | CallPause => Video.pause v
  end.

(** The calls are made one after the other on the same video; the results
    are collected in order. *)
Fixpoint calls (cs : list PlaybackCall) (v : Video.t)
  : Video.t * list (PlaybackCall * OpResult.t) :=
  match cs with
  | [] => (v, [])
  | c :: cs' =>
      let '(v1, r) := call c v in
      let '(v2, rs) := calls cs' v1 in
      (v2, (c, r) :: rs)
  end.

(** The number of [play] calls of a trace that changed the state. *)
Fixpoint successful_plays (tr : list (PlaybackCall * OpResult.t)) : Z :=
  match tr with
  | [] => 0
  | (CallPlay, r) :: tr' =>
      (if OpResult.isSuccess r then 1 else 0) + successful_plays tr'
  | (CallPause, _) :: tr' => successful_plays tr'
  end.

(** ** The operations that return an OpResult *)

(** One constructor per member function of [Video], [Channel] and [User]
    whose return type is [OpResult], with its arguments and the object it
    is called on.  [Playlist] has no such member: [add] and [show] return
    [void].  [Channel::upload] returns a [Video*] and [User::getPlaylist] a
    [Playlist*]. *)
Inductive CoreCall : Type :=
| Video_play (v : Video.t)
| Video_pause (v : Video.t)
| Video_addComment (user tx : string) (now : Z) (v : Video.t) (counter : Z)
| Video_likeComment (cid : Z) (v : Video.t)
| Video_removeComment (cid : Z) (requester channelOwner : string) (v : Video.t)
| Channel_subscribe (user : string) (ch : Channel.t)
| Channel_unsubscribe (user : string) (ch : Channel.t)
| User_watch (v : option Video.t) (u : User.t)
| User_addComment (v : option Video.t) (tx : string) (now : Z) (u : User.t) (counter : Z)
| User_likeComment (v : option Video.t) (cid : Z) (u : User.t)
| User_createPlaylist (pname : string) (u : User.t)
| User_subscribeChannel (ch : Channel.t) (u : User.t).

Definition result_of (c : CoreCall) : OpResult.t :=
  match c with
  | Video_play v => snd (Video.play v)
  | Video_pause v => snd (Video.pause v)
  | Video_addComment user tx now v counter =>
      snd (Video.addComment user tx now v counter)
  | Video_likeComment cid v => snd (Video.likeComment cid v)
  | Video_removeComment cid requester channelOwner v =>
      snd (Video.removeComment cid requester channelOwner v)
  | Channel_subscribe user ch => snd (Channel.subscribe user ch)
  | Channel_unsubscribe user ch => snd (Channel.unsubscribe user ch)
  | User_watch v u => snd (User.watch v u)
  | User_addComment v tx now u counter => snd (User.addComment v tx now u counter)
  | User_likeComment v cid u => snd (User.likeComment v cid u)
  | User_createPlaylist pname u => snd (User.createPlaylist pname u)
  | User_subscribeChannel ch u => snd (User.subscribeChannel ch u)
  end.

(** The statuses that stand for an outcome of the core itself. *)
Definition raised (s : OpStatus) : Prop :=
  s = SUCCESS \/ s = NOT_FOUND \/ s = ALREADY_EXISTS \/
  s = PERMISSION_DENIED \/ s = INVALID_INPUT.

(** ** Who may remove a comment, as the specification words it *)

Definition may_remove (requester channelOwner : string) (c : Comment.t) : Prop :=
  requester = Comment.author c \/ requester = channelOwner.

(** ** Matching without regard to case, as the specification words it *)

(** Two bytes are the same letter when they are equal or when one is a
    capital [A]..[Z] and the other the small letter 32 codes above it. *)
Definition same_letter (a b : ascii) : Prop :=
  let x := N_of_ascii a in
  let y := N_of_ascii b in
  (x = y \/ ((65 <= x <= 90) /\ y = x + 32) \/ ((65 <= y <= 90) /\ x = y + 32))%N.

Inductive eq_ignore_case : string -> string -> Prop :=
| eq_ignore_case_nil : eq_ignore_case EmptyString EmptyString
| eq_ignore_case_cons a b s t :
    same_letter a b -> eq_ignore_case s t ->
    eq_ignore_case (String a s) (String b t).

(** [q] occurs in [ti] up to case: some run of consecutive bytes of [ti]
    equals [q] up to case. *)
Definition contains_ignore_case (q ti : string) : Prop :=
  exists pre mid post, ti = pre ++ mid ++ post /\ eq_ignore_case mid q.

(** ** The listing of a playlist, as the specification words it *)

(** Each stored identifier is resolved against the mapping, in order, with
    its position in the list; an identifier that does not resolve gives no
    line. *)
Definition resolved_lines (videoMap : gmap Z Video.t) (ids : list Z) : list string :=
  omap id (imap (fun i vid => Playlist.entry_line i <$> videoMap !! vid) ids).

(** ** Watching and playing playlists from the menu ([main]) *)

(** The registry [videos] of [main] maps an identifier to the one video
    object that carries it; the model keeps that object as the value of the
    entry, so a call through the pointer rewrites the entry. *)

(** One pass of the playlist loop on a video that resolves: [play()] then
    [pause()], both results dropped. *)
Definition play_and_pause (v : Video.t) : Video.t :=
  fst (Video.pause (fst (Video.play v))).

(** The loop of the branch [cmd == 14] over the playlist's identifiers. *)
Fixpoint play_playlist (ids : list Z) (videos : gmap Z Video.t) : gmap Z Video.t :=
  match ids with
  | [] => videos
  | vid :: rest =>
      match videos !! vid with
      | Some v => play_playlist rest (<[vid := play_and_pause v]> videos)
      | None => play_playlist rest videos
      end
  end.

(** The branch [cmd == 7]: the video is looked up first; a logged-in user
    watches it, an anonymous one plays it directly.  The last component is
    the line printed. *)
Definition cmd_watch (vid : Z) (current : option User.t) (videos : gmap Z Video.t)
  : option User.t * gmap Z Video.t * string :=
  match videos !! vid with
  | None => (current, videos, "Video not found" ++ newline)
  | Some v =>
      match current with
      | Some u =>
          let '(u', v', r) := User.watch (Some v) u in
          (Some u',
           match v' with Some w => <[vid := w]> videos | None => videos end,
           OpResult.message r ++ newline)
      | None =>
          let '(w, r) := Video.play v in
          (None, <[vid := w]> videos, OpResult.message r ++ newline)
      end
  end.

(** The branch taken once for each identifier of a list. *)
Fixpoint cmd_watch_all (vids : list Z) (current : option User.t)
    (videos : gmap Z Video.t) : option User.t * gmap Z Video.t :=
  match vids with
  | [] => (current, videos)
  | vid :: rest =>
      let '(current', videos', _) := cmd_watch vid current videos in
      cmd_watch_all rest current' videos'
  end.

(** ** Sequences of calls on a channel *)

Inductive ChannelCall : Set :=
| CallUpload (ti : string) (dur : Z)
| CallSubscribe (user : string)
| CallUnsubscribe (user : string).

Definition channel_call (c : ChannelCall) (ch : Channel.t) (counter : Z)
  : Channel.t * Z :=
  match c with
  | CallUpload ti dur =>
      let '(ch', _, counter') := Channel.upload ti dur ch counter in (ch', counter')
  | CallSubscribe user => (fst (Channel.subscribe user ch), counter)
  | CallUnsubscribe user => (fst (Channel.unsubscribe user ch), counter)
  end.

Fixpoint channel_calls (cs : list ChannelCall) (ch : Channel.t) (counter : Z)
  : Channel.t * Z :=
  match cs with
  | [] => (ch, counter)
  | c :: cs' =>
      let '(ch1, counter1) := channel_call c ch counter in
      channel_calls cs' ch1 counter1
  end.

Definition is_upload (c : ChannelCall) : bool :=
  match c with CallUpload _ _ => true | _ => false end.

(** The titles and durations uploaded by a sequence of calls, in order. *)
Fixpoint uploaded (cs : list ChannelCall) : list (string * Z) :=
  match cs with
  | [] => []
  | CallUpload ti dur :: cs' => (ti, dur) :: uploaded cs'
  | _ :: cs' => uploaded cs'
  end.

(** The videos a channel named [n] makes of them when the counter stands
    at [counter]. *)
Fixpoint videos_of (n : string) (counter : Z) (l : list (string * Z)) : list Video.t :=
  match l with
  | [] => []
  | (ti, dur) :: l' =>
      Video.mk (counter + 1) ti n dur 0 false [] :: videos_of n (counter + 1) l'
  end.

(** ** Accounts, sessions and channels in the menu ([main]) *)

Module Main.
(** The part of the state of [main] that the branches 1, 2, 3, 4 and 6
    read and write.  [current] points to an element of [users]; the model
    keeps the key of that element. *)
Record State : Type := mkState {
  users : gmap string User.t;
  channels : gmap string Channel.t;
  current : option string
}.

(** The state before the first command: no user, nobody logged in, the two
    default channels with their three uploads. *)
Definition init : State :=
  let k0 := Channel.make "KavyaTech" "system" "C++ tutorials" in
  let i0 := Channel.make "IndieMusic" "system" "Music channel" in
  let '(k1, _, c1) := Channel.upload "C++ OOP Deep Dive" 900 k0 IdGen.init in
  let '(k2, _, c2) := Channel.upload "Data Structures Overview" 720 k1 c1 in
  let '(i1, _, _) := Channel.upload "Chill Loops" 300 i0 c2 in
  mkState ∅ (<["IndieMusic" := i1]> (<["KavyaTech" := k2]> ∅)) None.

(** A command with the lines it reads. *)
Inductive Command : Set :=
| Register (uname : string)
| Login (uname : string)
| Logout
| CreateChannel (cname desc : string)
| Subscribe (cname : string).

(** What [current] points to: [None] when nobody is logged in,
    [Some None] when the pointer designates no element of [users]. *)
Definition pointee (s : State) : option (option User.t) :=
  match current s with
  | None => None
  | Some k => Some (users s !! k)
  end.

Definition is_empty (x : string) : bool :=
  match x with EmptyString => true | String _ _ => false end.

(** One branch of the command loop: the new state and the line printed.
    The result is [None] when the branch would go through a pointer that
    designates no user. *)
Definition exec (c : Command) (s : State) : option (State * string) :=
  match c with
  | Register uname =>
      if is_empty uname then Some (s, "Empty name" ++ newline)
      else match users s !! uname with
           | Some _ => Some (s, "User exists" ++ newline)
           | None =>
               Some (mkState (<[uname := User.make uname]> (users s))
                             (channels s) (current s),
                     "Registered user: " ++ uname ++ newline)
           end
  | Login uname =>
      match users s !! uname with
      | None => Some (s, "No such user. Register first." ++ newline)
      | Some u =>
          Some (mkState (users s) (channels s) (Some uname),
                "Logged in as " ++ User.username u ++ newline)
      end
  | Logout =>
      match pointee s with
      | None => Some (s, "Not logged in" ++ newline)
      | Some None => None
      | Some (Some u) =>
          Some (mkState (users s) (channels s) None,
                "Logged out " ++ User.username u ++ newline)
      end
  | CreateChannel cname desc =>
      match pointee s with
      | None => Some (s, "Login required" ++ newline)
      | Some p =>
          if is_empty cname then Some (s, "Empty name" ++ newline)
          else match channels s !! cname with
               | Some _ => Some (s, "Channel exists" ++ newline)
               | None =>
                   match p with
                   | None => None
                   | Some u =>
                       Some (mkState (users s)
                               (<[cname := Channel.make cname (User.username u) desc]>
                                  (channels s))
                               (current s),
                             "Channel " ++ dquote ++ cname ++ dquote ++ " created"
                               ++ newline)
                   end
               end
      end
  | Subscribe cname =>
      match current s with
      | None => Some (s, "Login required" ++ newline)
      | Some k =>
          match channels s !! cname with
          | None => Some (s, "Channel not found" ++ newline)
          | Some ch =>
              match users s !! k with
              | None => None
              | Some u =>
                  let '(u', ch', r) := User.subscribeChannel ch u in
                  Some (mkState (<[k := u']> (users s))
                                (<[cname := ch']> (channels s))
                                (current s),
                        OpResult.message r ++ newline)
              end
          end
      end
  end.

(** A run of the command loop; [None] as soon as a branch has no result. *)
Fixpoint run (cs : list Command) (s : State) : option State :=
  match cs with
  | [] => Some s
  | c :: cs' =>
      match exec c s with
      | Some (s', _) => run cs' s'
      | None => None
      end
  end.

(** What every state of a run satisfies: users and channels are stored
    under their own names, the session pointer designates a user, only
    registered users and existing channels are subscribed, and the two
    sides of every subscription agree. *)
Definition ok (s : State) : Prop :=
  (forall k u, users s !! k = Some u -> User.username u = k) /\
  (forall k ch, channels s !! k = Some ch -> Channel.name ch = k) /\
  (forall k, current s = Some k -> is_Some (users s !! k)) /\
  (forall k u cn, users s !! k = Some u -> cn ∈ User.subscriptions u ->
     is_Some (channels s !! cn)) /\
  (forall cn ch k, channels s !! cn = Some ch -> k ∈ Channel.subscribers ch ->
     is_Some (users s !! k)) /\
  (forall k u cn ch, users s !! k = Some u -> channels s !! cn = Some ch ->
     (cn ∈ User.subscriptions u <-> k ∈ Channel.subscribers ch)).
End Main.

(** What the menu may do to an account and to a channel between two
    states: add subscriptions, and nothing else. *)
Definition user_kept (u u' : User.t) : Prop :=
  User.username u' = User.username u /\
  User.historyIds u' = User.historyIds u /\
  User.playlists u' = User.playlists u /\
  User.subscriptions u ⊆ User.subscriptions u'.

Definition channel_kept (ch ch' : Channel.t) : Prop :=
  Channel.name ch' = Channel.name ch /\
  Channel.owner ch' = Channel.owner ch /\
  Channel.description ch' = Channel.description ch /\
  Channel.uploads ch' = Channel.uploads ch /\
  Channel.subscribers ch ⊆ Channel.subscribers ch'.

Definition state_kept (s s' : Main.State) : Prop :=
  (forall k u, Main.users s !! k = Some u ->
     exists u', Main.users s' !! k = Some u' /\ user_kept u u') /\
  (forall cn ch, Main.channels s !! cn = Some ch ->
     exists ch', Main.channels s' !! cn = Some ch' /\ channel_kept ch ch').

(** * Properties *)

(** ** Machine integers *)

Lemma wrap64_id z : in_int64 z -> wrap64 z = z.
Proof.
  unfold in_int64, wrap64, LLONG_MIN, LLONG_MAX. intros H.
  rewrite Z.mod_small; lia.
Qed.

Lemma wrap64_succ z : in_int64 z -> z < LLONG_MAX -> wrap64 (z + 1) = z + 1.
Proof.
  unfold in_int64. intros H Hlt. apply wrap64_id. unfold in_int64. lia.
Qed.

Lemma wrap64_range z : in_int64 (wrap64 z).
Proof.
  unfold in_int64, wrap64, LLONG_MIN, LLONG_MAX.
  pose proof (Z.mod_pos_bound (z + 2 ^ 63) (2 ^ 64) ltac:(lia)). lia.
Qed.

Lemma wrap64_max : wrap64 (LLONG_MAX + 1) = LLONG_MIN.
Proof. reflexivity. Qed.

(** ** Video: play and pause *)

Section Playback.
Variable v : Video.t.

Lemma play_paused :
  Video.playing v = false ->
  Video.play v =
    (Video.set_playback v (wrap64 (Video.views v + 1)) true,
     OpResult.make SUCCESS
       ("Playing " ++ dquote ++ Video.title v ++ dquote ++ " (views: "
          ++ to_string (wrap64 (Video.views v + 1)) ++ ")")).
Proof. intros H. unfold Video.play. rewrite H. reflexivity. Qed.

Lemma play_playing :
  Video.playing v = true ->
  Video.play v =
    (v, OpResult.make ALREADY_EXISTS
          ("Already playing " ++ dquote ++ Video.title v ++ dquote)).
Proof. intros H. unfold Video.play. rewrite H. reflexivity. Qed.

Lemma pause_playing :
  Video.playing v = true ->
  Video.pause v =
    (Video.set_playback v (Video.views v) false,
     OpResult.make SUCCESS ("Paused " ++ dquote ++ Video.title v ++ dquote)).
Proof. intros H. unfold Video.pause. rewrite H. reflexivity. Qed.

Lemma pause_paused :
  Video.playing v = false ->
  Video.pause v =
    (v, OpResult.make INVALID_INPUT
          ("Not playing " ++ dquote ++ Video.title v ++ dquote)).
Proof. intros H. unfold Video.pause. rewrite H. reflexivity. Qed.

(** After [play] the video is playing, whatever its state was. *)
Lemma play_then_playing : Video.playing (fst (Video.play v)) = true.
Proof. unfold Video.play. destruct (Video.playing v) eqn:E; simpl; auto. Qed.

(** The view counter after one call, as long as it can still count. *)
Lemma call_views c :
  in_int64 (Video.views v) -> Video.views v < LLONG_MAX ->
  Video.views (fst (call c v)) =
    Video.views v + successful_plays [(c, snd (call c v))].
Proof.
  intros Hr Hlt. destruct c; simpl.
  - unfold Video.play. destruct (Video.playing v); simpl.
    + lia.
    + rewrite wrap64_succ by assumption. lia.
  - unfold Video.pause. destruct (Video.playing v); simpl; lia.
Qed.

Lemma call_views_bounds c :
  in_int64 (Video.views v) -> Video.views v < LLONG_MAX ->
  Video.views v <= Video.views (fst (call c v)) <= Video.views v + 1.
Proof.
  intros Hr Hlt. rewrite call_views by assumption. simpl.
  destruct c; simpl; [destruct (OpResult.isSuccess _)|]; lia.
Qed.
End Playback.

Lemma successful_plays_cons c r tr :
  successful_plays ((c, r) :: tr) = successful_plays [(c, r)] + successful_plays tr.
Proof. destruct c; simpl; lia. Qed.

(** Over a whole sequence of calls the counter moves by the number of
    [play] calls that succeeded. *)
Lemma calls_views cs : forall v,
  in_int64 (Video.views v) ->
  Video.views v + Z.of_nat (length cs) <= LLONG_MAX ->
  Video.views (fst (calls cs v)) = Video.views v + successful_plays (snd (calls cs v)).
Proof.
  induction cs as [|c cs IH]; intros v Hr Hb.
  - simpl. lia.
  - cbn [calls]. destruct (call c v) as [v1 r] eqn:E1.
    destruct (calls cs v1) as [v2 rs] eqn:E2. cbn [fst snd].
    cbn [length] in Hb.
    assert (Hlt : Video.views v < LLONG_MAX) by lia.
    pose proof (call_views v c Hr Hlt) as H1.
    pose proof (call_views_bounds v c Hr Hlt) as H2.
    rewrite E1 in H1, H2. cbn [fst snd] in H1, H2.
    assert (Hr1 : in_int64 (Video.views v1)) by (unfold in_int64 in *; lia).
    specialize (IH v1 Hr1 ltac:(lia)). rewrite E2 in IH. cbn [fst snd] in IH.
    rewrite successful_plays_cons. lia.
Qed.

(** C1.  For every video whose view counter can still count: [play] on a
    video that is not playing sets the flag, adds exactly one view and
    returns [SUCCESS] (with the new count in the message); [play] on a
    video that is playing returns [ALREADY_EXISTS] and leaves the video as
    it is; a rejected call never changes the video; over every sequence of
    [play] and [pause] calls the counter grows by exactly the number of
    successful [play] calls; and [play(); play()] counts one view, its
    second call being rejected. *)
Theorem play_counts_one_view (v : Video.t) (cs : list PlaybackCall)
    (Hrange : in_int64 (Video.views v)) (Hroom : Video.views v < LLONG_MAX) :
  (Video.playing v = false ->
     Video.play v =
       (Video.set_playback v (Video.views v + 1) true,
        OpResult.make SUCCESS
          ("Playing " ++ dquote ++ Video.title v ++ dquote ++ " (views: "
             ++ to_string (Video.views v + 1) ++ ")"))) /\
  (Video.playing v = true ->
     fst (Video.play v) = v /\
     OpResult.status (snd (Video.play v)) = ALREADY_EXISTS) /\
  (forall c, OpResult.isSuccess (snd (call c v)) = false -> fst (call c v) = v) /\
  (Video.views v + Z.of_nat (length cs) <= LLONG_MAX ->
     Video.views (fst (calls cs v)) =
       Video.views v + successful_plays (snd (calls cs v))) /\
  (let '(v1, r1) := Video.play v in
   let '(v2, r2) := Video.play v1 in
   v2 = v1 /\ OpResult.isSuccess r2 = false /\
   (Video.playing v = false ->
      OpResult.status r1 = SUCCESS /\ Video.views v2 = Video.views v + 1)).
Proof.
  split; [| split; [| split; [| split]]].
  - intros Hp. rewrite play_paused by assumption.
    rewrite wrap64_succ by assumption. reflexivity.
  - intros Hp. rewrite play_playing by assumption. split; reflexivity.
  - intros [] Hrej; simpl in *.
    + unfold Video.play in *. destruct (Video.playing v); [reflexivity | discriminate].
    + unfold Video.pause in *. destruct (Video.playing v); [discriminate | reflexivity].
  - intros Hb. apply calls_views; assumption.
  - destruct (Video.play v) as [v1 r1] eqn:E1.
    assert (Hp1 : Video.playing v1 = true).
    { pose proof (play_then_playing v) as H. rewrite E1 in H. exact H. }
    rewrite (play_playing v1 Hp1). split; [reflexivity | split; [reflexivity |]].
    intros Hp. rewrite play_paused in E1 by assumption.
    injection E1 as <- <-. simpl. rewrite wrap64_succ by assumption. auto.
Qed.

Lemma play_counts_one_view_witness :
  let v := fst (Video.make "V1" "C" 100 IdGen.init) in
  let cs := [CallPlay; CallPlay; CallPause; CallPlay] in
  Video.views (fst (Video.play v)) = 1 /\
  Video.views (fst (calls cs v)) = 2 /\
  map (fun x => OpResult.status (snd x)) (snd (calls cs v)) =
    [SUCCESS; ALREADY_EXISTS; SUCCESS; SUCCESS].
Proof.
  intros v cs.
  assert (Hrange : in_int64 (Video.views v)) by (vm_compute; split; discriminate).
  assert (Hroom : Video.views v < LLONG_MAX) by reflexivity.
  destruct (play_counts_one_view v cs Hrange Hroom) as (Ha & _ & _ & Hc & _).
  split; [| split].
  - rewrite (Ha eq_refl). reflexivity.
  - rewrite Hc by (vm_compute; discriminate). reflexivity.
  - reflexivity.
Defined.

(** C7.  The playback state machine of a video has the two states [Paused]
    and [Playing]; a new video is [Paused]; [pause] on a playing video
    clears the flag and returns [SUCCESS]; [pause] on a paused video returns
    [INVALID_INPUT]; both self-transitions are rejected and change neither
    the flag nor the view counter. *)
Theorem playback_state_machine (v : Video.t) :
  (playback v = Paused \/ playback v = Playing) /\
  (forall ti u d c, playback (fst (Video.make ti u d c)) = Paused) /\
  (playback v = Playing ->
     let '(v', r) := Video.pause v in
     playback v' = Paused /\ Video.playing v' = false /\
     Video.views v' = Video.views v /\ OpResult.status r = SUCCESS) /\
  (playback v = Paused ->
     let '(v', r) := Video.pause v in
     v' = v /\ OpResult.status r = INVALID_INPUT /\ OpResult.isSuccess r = false) /\
  (playback v = Playing ->
     let '(v', r) := Video.play v in
     v' = v /\ OpResult.status r = ALREADY_EXISTS /\ OpResult.isSuccess r = false).
Proof.
  unfold playback. split; [| split; [| split; [| split]]].
  - destruct (Video.playing v); auto.
  - reflexivity.
  - destruct (Video.playing v) eqn:E; [intros _ | discriminate].
    rewrite pause_playing by assumption. repeat split.
  - destruct (Video.playing v) eqn:E; [discriminate | intros _].
    rewrite pause_paused by assumption. repeat split.
  - destruct (Video.playing v) eqn:E; [intros _ | discriminate].
    rewrite play_playing by assumption. repeat split.
Qed.

Lemma playback_state_machine_witness :
  let v := fst (Video.make "V1" "C" 100 IdGen.init) in
  let p := fst (Video.play v) in
  playback v = Paused /\ playback p = Playing /\
  fst (Video.pause v) = v /\ fst (Video.play p) = p /\
  playback (fst (Video.pause p)) = Paused.
Proof.
  intros v p.
  destruct (playback_state_machine v) as (_ & _ & _ & Hpp & _).
  destruct (playback_state_machine p) as (_ & _ & Hpl & _ & Hself).
  specialize (Hpp eq_refl). specialize (Hpl eq_refl). specialize (Hself eq_refl).
  destruct (Video.pause v) as [v' r]. destruct Hpp as (-> & _).
  destruct (Video.play p) as [p' r']. destruct Hself as (-> & _).
  destruct (Video.pause p) as [p'' r'']. destruct Hpl as (Hs & _).
  repeat split; try reflexivity. exact Hs.
Defined.

(** ** User: watch *)

Lemma watch_some (u : User.t) (vd : Video.t) :
  User.watch (Some vd) u =
    (User.mk (User.username u) (User.subscriptions u)
             ((User.historyIds u ++ [Video.id vd])%list) (User.playlists u),
     Some (fst (Video.play vd)), snd (Video.play vd)).
Proof. unfold User.watch. destruct (Video.play vd); reflexivity. Qed.

(** C5.  [watch] on an absent video returns [NOT_FOUND] and leaves the
    user, hence the watch history, as it was; on a video that is present it
    appends the video's identifier to the watch history and returns exactly
    the result of [play] on that video (status, message and identifier),
    the video being left as [play] leaves it. *)
Theorem watch_delegates_to_play (u : User.t) (v : option Video.t) :
  match v with
  | None =>
      let '(u', v', r) := User.watch None u in
      u' = u /\ User.historyIds u' = User.historyIds u /\ v' = None /\
      OpResult.status r = NOT_FOUND
  | Some vd =>
      let '(u', v', r) := User.watch (Some vd) u in
      User.historyIds u' = (User.historyIds u ++ [Video.id vd])%list /\
      User.username u' = User.username u /\
      User.subscriptions u' = User.subscriptions u /\
      User.playlists u' = User.playlists u /\
      v' = Some (fst (Video.play vd)) /\
      r = snd (Video.play vd)
  end.
Proof.
  destruct v as [vd|].
  - rewrite watch_some. repeat split.
  - simpl. repeat split.
Qed.

(** C10.  [watch] on a video that is already playing still appends the
    video's identifier to the watch history, which grows by one entry,
    although the delegated [play] is rejected with [ALREADY_EXISTS] and the
    video, its view count included, is unchanged. *)
Theorem watch_appends_even_if_playing (u : User.t) (vd : Video.t)
    (Hplaying : Video.playing vd = true) :
  let '(u', v', r) := User.watch (Some vd) u in
  User.historyIds u' = (User.historyIds u ++ [Video.id vd])%list /\
  length (User.historyIds u') = S (length (User.historyIds u)) /\
  OpResult.status r = ALREADY_EXISTS /\
  v' = Some vd /\
  (forall vd', v' = Some vd' -> Video.views vd' = Video.views vd).
Proof.
  rewrite watch_some, play_playing by assumption. cbn [fst snd].
  split; [reflexivity | split; [| split; [reflexivity | split; [reflexivity |]]]].
  - cbn [User.historyIds]. rewrite length_app. simpl. lia.
  - intros vd' [= <-]. reflexivity.
Qed.

Lemma watch_appends_even_if_playing_witness :
  let u := User.make "alice" in
  let vd := fst (Video.play (fst (Video.make "V1" "C" 100 IdGen.init))) in
  let '(u1, v1, r1) := User.watch (Some vd) u in
  let '(u2, v2, r2) := User.watch v1 u1 in
  User.historyIds u2 = [1; 1] /\
  OpResult.status r2 = ALREADY_EXISTS /\
  v2 = Some vd.
Proof.
  intros u vd.
  pose proof (watch_appends_even_if_playing u vd eq_refl) as H1.
  destruct (User.watch (Some vd) u) as [[u1 v1] r1].
  destruct H1 as (Hh1 & _ & _ & -> & _).
  pose proof (watch_appends_even_if_playing u1 vd eq_refl) as H2.
  destruct (User.watch (Some vd) u1) as [[u2 v2] r2].
  destruct H2 as (Hh2 & _ & Hs & -> & _).
  split; [| split; [exact Hs | reflexivity]].
  rewrite Hh2, Hh1. reflexivity.
Defined.

(** ** Channel: subscribe *)

Lemma subscribe_new (user : string) (ch : Channel.t) :
  user ∉ Channel.subscribers ch ->
  Channel.subscribe user ch =
    (Channel.set_subscribers ch ({[user]} ∪ Channel.subscribers ch),
     OpResult.make SUCCESS (user ++ " subscribed to " ++ Channel.name ch)).
Proof.
  intros H. unfold Channel.subscribe.
  rewrite bool_decide_eq_false_2 by assumption. reflexivity.
Qed.

Lemma subscribe_again (user : string) (ch : Channel.t) :
  user ∈ Channel.subscribers ch ->
  Channel.subscribe user ch =
    (ch, OpResult.make ALREADY_EXISTS (user ++ " already subscribed")).
Proof.
  intros H. unfold Channel.subscribe.
  rewrite bool_decide_eq_true_2 by assumption. reflexivity.
Qed.

(** C6.  The first [subscribe] of a user to a channel returns [SUCCESS] and
    inserts the name into the subscriber set, which grows by one; a second
    [subscribe] of the same user to the same channel returns
    [ALREADY_EXISTS] and leaves the channel, hence the subscriber set, its
    size and its contents, unchanged. *)
Theorem subscribe_twice (ch : Channel.t) (user : string)
    (Hfirst : user ∉ Channel.subscribers ch) :
  let '(ch1, r1) := Channel.subscribe user ch in
  let '(ch2, r2) := Channel.subscribe user ch1 in
  OpResult.status r1 = SUCCESS /\
  user ∈ Channel.subscribers ch1 /\
  Channel.subscribers ch1 = {[user]} ∪ Channel.subscribers ch /\
  size (Channel.subscribers ch1) = S (size (Channel.subscribers ch)) /\
  OpResult.status r2 = ALREADY_EXISTS /\
  ch2 = ch1 /\
  Channel.subscribers ch2 = Channel.subscribers ch1 /\
  size (Channel.subscribers ch2) = size (Channel.subscribers ch1).
Proof.
  rewrite subscribe_new by assumption.
  rewrite subscribe_again by (cbn; set_solver).
  cbn [Channel.set_subscribers Channel.subscribers OpResult.status OpResult.make].
  repeat split.
  - set_solver.
  - rewrite size_union by set_solver. rewrite size_singleton. reflexivity.
Qed.

Lemma subscribe_twice_witness :
  let ch := Channel.make "KavyaTech" "system" "C++ tutorials" in
  let '(ch1, r1) := Channel.subscribe "bob" ch in
  let '(ch2, r2) := Channel.subscribe "bob" ch1 in
  OpResult.status r1 = SUCCESS /\ OpResult.status r2 = ALREADY_EXISTS /\
  Channel.subscribers ch2 = {["bob"]} /\ size (Channel.subscribers ch2) = 1%nat.
Proof.
  intros ch.
  pose proof (subscribe_twice ch "bob" (not_elem_of_empty (C := gset string) "bob")) as H.
  destruct (Channel.subscribe "bob" ch) as [ch1 r1].
  destruct (Channel.subscribe "bob" ch1) as [ch2 r2].
  destruct H as (H1 & _ & Hs & Hn & H2 & -> & _ & _).
  split; [exact H1 | split; [exact H2 | split]].
  - rewrite Hs. cbn. apply (right_id_L ∅ (∪)).
  - rewrite Hn. cbn. rewrite size_empty. reflexivity.
Defined.

(** ** Video: removeComment *)

Section RemoveComment.
Variables (cid : Z) (requester channelOwner : string).

Lemma may_remove_test c :
  String.eqb requester (Comment.author c) || String.eqb requester channelOwner = true
  <-> may_remove requester channelOwner c.
Proof.
  unfold may_remove. rewrite orb_true_iff, !String.eqb_eq. reflexivity.
Qed.

Local Abbreviation loop := (Video.removeComment_loop cid requester channelOwner).

(** No comment carries the identifier: the loop runs to its end. *)
Lemma removeComment_loop_absent cs :
  (forall c, In c cs -> Comment.id c <> cid) ->
  loop cs = (cs, OpResult.make NOT_FOUND "Comment not found").
Proof.
  induction cs as [|c cs IH]; intros H; simpl; [reflexivity |].
  destruct (Z.eqb_spec (Comment.id c) cid) as [E|E].
  - exfalso. apply (H c); [left; reflexivity | exact E].
  - rewrite IH; [reflexivity |]. intros x Hx. apply H. right. exact Hx.
Qed.

(** The loop stops at the first comment that carries the identifier. *)
Lemma removeComment_loop_first pre c post :
  (forall x, In x pre -> Comment.id x <> cid) ->
  Comment.id c = cid ->
  loop (pre ++ c :: post)%list =
    if String.eqb requester (Comment.author c) || String.eqb requester channelOwner
    then ((pre ++ post)%list, OpResult.make SUCCESS "Comment removed")
    else ((pre ++ c :: post)%list, OpResult.make PERMISSION_DENIED "Permission denied").
Proof.
  intros Hpre Hc. induction pre as [|x pre IH]; simpl.
  - rewrite (proj2 (Z.eqb_eq _ _) Hc). destruct (_ || _); reflexivity.
  - destruct (Z.eqb_spec (Comment.id x) cid) as [E|E].
    + exfalso. apply (Hpre x); [left; reflexivity | exact E].
    + rewrite IH by (intros y Hy; apply Hpre; right; exact Hy).
      destruct (_ || _); reflexivity.
Qed.

(** A list that holds the identifier splits at its first occurrence. *)
Lemma first_with_id cs :
  (exists c, In c cs /\ Comment.id c = cid) ->
  exists pre c post,
    cs = (pre ++ c :: post)%list /\ Comment.id c = cid /\
    forall x, In x pre -> Comment.id x <> cid.
Proof.
  induction cs as [|a cs IH]; intros (c & Hin & Hc); [destruct Hin |].
  destruct (Z.eq_dec (Comment.id a) cid) as [E|E].
  - exists [], a, cs. repeat split; [exact E | intros x []].
  - destruct Hin as [-> | Hin]; [contradiction |].
    destruct IH as (pre & c' & post & -> & Hc' & Hpre); [exists c; auto |].
    exists (a :: pre), c', post. repeat split; [exact Hc' |].
    intros x [<- | Hx]; [exact E | apply Hpre; exact Hx].
Qed.

(** With pairwise distinct identifiers the comment that carries a given
    one is unique, and erasing it keeps exactly the others. *)
Lemma unique_with_id pre c post x :
  List.NoDup (map Comment.id (pre ++ c :: post)) ->
  In x (pre ++ c :: post)%list -> Comment.id x = Comment.id c -> x = c.
Proof.
  rewrite map_app. cbn [map]. intros Hnd Hin Hid.
  apply NoDup_remove_2 in Hnd.
  apply in_app_or in Hin. destruct Hin as [Hin | [Heq | Hin]]; [| auto |].
  - exfalso. apply Hnd. apply in_or_app. left. rewrite <- Hid.
    apply in_map. exact Hin.
  - exfalso. apply Hnd. apply in_or_app. right. rewrite <- Hid.
    apply in_map. exact Hin.
Qed.

Lemma filter_other_ids l :
  (forall x, In x l -> Comment.id x <> cid) ->
  List.filter (fun x => negb (Comment.id x =? cid)%Z) l = l.
Proof.
  induction l as [|a l IH]; intros H; [reflexivity |]. cbn [List.filter].
  rewrite (proj2 (Z.eqb_neq _ _) (H a (or_introl eq_refl))). cbn [negb].
  rewrite IH; [reflexivity |]. intros x Hx. apply H. right. exact Hx.
Qed.

(** Erasing the one comment with the identifier is filtering it out. *)
Lemma erased_filter pre c post :
  List.NoDup (map Comment.id (pre ++ c :: post)) -> Comment.id c = cid ->
  List.filter (fun x => negb (Comment.id x =? cid)%Z) (pre ++ c :: post) =
    (pre ++ post)%list.
Proof.
  intros Hnd Hc. rewrite map_app in Hnd. cbn [map] in Hnd.
  apply NoDup_remove_2 in Hnd. rewrite <- map_app in Hnd.
  rewrite List.filter_app. cbn [List.filter].
  rewrite (proj2 (Z.eqb_eq _ _) Hc). cbn [negb].
  rewrite !filter_other_ids; [reflexivity | |].
  - intros x Hx E. apply Hnd. rewrite Hc, <- E. apply in_map.
    apply in_or_app. right. exact Hx.
  - intros x Hx E. apply Hnd. rewrite Hc, <- E. apply in_map.
    apply in_or_app. left. exact Hx.
Qed.

Lemma erased_others pre c post x :
  List.NoDup (map Comment.id (pre ++ c :: post)) ->
  In x (pre ++ post)%list <->
  In x (pre ++ c :: post)%list /\ Comment.id x <> Comment.id c.
Proof.
  intros Hnd. split.
  - intros Hin. split.
    + apply in_app_or in Hin. apply in_or_app. destruct Hin; [left | right; right]; auto.
    + intros Hid. rewrite map_app in Hnd. cbn [map] in Hnd.
      apply NoDup_remove_2 in Hnd. apply Hnd. rewrite <- map_app, <- Hid.
      apply in_map. exact Hin.
  - intros [Hin Hid]. apply in_app_or in Hin. apply in_or_app.
    destruct Hin as [Hin | [<- | Hin]]; [left | contradiction | right]; auto.
Qed.
End RemoveComment.

(** C2.  On a video whose comments carry pairwise distinct identifiers:
    [removeComment] returns [SUCCESS] exactly when a comment with the
    identifier exists and the requester is its author or the channel owner,
    and it then erases that comment and no other, the others keeping
    their order; when the comment exists
    and the requester is neither, it returns [PERMISSION_DENIED] and the
    video is unchanged; when no comment has the identifier it returns
    [NOT_FOUND] and the video is unchanged. *)
Theorem removeComment_by_author_or_owner
    (v : Video.t) (cid : Z) (requester channelOwner : string)
    (Hdistinct : List.NoDup (map Comment.id (Video.comments v))) :
  let '(v', r) := Video.removeComment cid requester channelOwner v in
  let has c := In c (Video.comments v) /\ Comment.id c = cid in
  let allowed c := may_remove requester channelOwner c in
  (OpResult.status r = SUCCESS <-> exists c, has c /\ allowed c) /\
  (OpResult.status r = SUCCESS ->
     Video.comments v' =
       List.filter (fun x => negb (Comment.id x =? cid)%Z) (Video.comments v) /\
     (forall x, In x (Video.comments v') <->
                In x (Video.comments v) /\ Comment.id x <> cid) /\
     S (length (Video.comments v')) = length (Video.comments v)) /\
  ((exists c, has c /\ ~ allowed c) ->
     OpResult.status r = PERMISSION_DENIED /\ v' = v) /\
  ((forall c, ~ has c) -> OpResult.status r = NOT_FOUND /\ v' = v) /\
  (OpResult.status r = SUCCESS \/ OpResult.status r = PERMISSION_DENIED \/
   OpResult.status r = NOT_FOUND) /\
  Video.set_comments v' (Video.comments v) = v.
Proof.
  unfold Video.removeComment.
  destruct (List.Exists_dec (fun c => Comment.id c = cid) (Video.comments v)
              (fun c => Z.eq_dec (Comment.id c) cid)) as [Hex | Hno].
  - apply List.Exists_exists in Hex.
    destruct (first_with_id cid _ Hex) as (pre & c & post & Hcs & Hc & Hpre).
    rewrite Hcs in *. rewrite (removeComment_loop_first _ _ _ pre c post Hpre Hc).
    assert (Huniq : forall x, In x (pre ++ c :: post)%list /\ Comment.id x = cid -> x = c).
    { intros x [Hx Hid]. eapply unique_with_id; eauto. congruence. }
    destruct (String.eqb requester (Comment.author c) || String.eqb requester channelOwner)
      eqn:Ht; cbn [Video.comments Video.set_comments OpResult.status OpResult.make].
    + apply may_remove_test in Ht.
      split; [| split; [| split; [| split; [| split]]]].
      * split; [intros _ | reflexivity].
        exists c. split; [split; [apply in_elt | exact Hc] | exact Ht].
      * intros _. split; [| split].
        -- symmetry. apply erased_filter; assumption.
        -- intros x. rewrite <- Hc. apply erased_others. exact Hdistinct.
        -- rewrite !length_app. simpl. lia.
      * intros (x & Hx & Hn). rewrite (Huniq x Hx) in Hn. contradiction.
      * intros Hnone. exfalso. apply (Hnone c). split; [apply in_elt | exact Hc].
      * left. reflexivity.
      * rewrite <- Hcs. destruct v; reflexivity.
    + assert (Hdenied : ~ may_remove requester channelOwner c).
      { intros Hm. apply may_remove_test in Hm. congruence. }
      assert (Hsame : Video.set_comments v (pre ++ c :: post) = v).
      { rewrite <- Hcs. destruct v; reflexivity. }
      split; [| split; [| split; [| split; [| split]]]].
      * split; [discriminate |].
        intros (x & Hx & Ha). rewrite (Huniq x Hx) in Ha. contradiction.
      * discriminate.
      * intros _. split; [reflexivity | exact Hsame].
      * intros Hnone. exfalso. apply (Hnone c). split; [apply in_elt | exact Hc].
      * right. left. reflexivity.
      * rewrite <- Hcs. destruct v; reflexivity.
  - assert (Habs : forall c, In c (Video.comments v) -> Comment.id c <> cid).
    { intros c Hin Hid. apply Hno. apply List.Exists_exists. exists c. auto. }
    rewrite (removeComment_loop_absent _ _ _ _ Habs).
    cbn [Video.comments Video.set_comments OpResult.status OpResult.make].
    assert (Hsame : Video.set_comments v (Video.comments v) = v) by (destruct v; reflexivity).
    split; [| split; [| split; [| split; [| split]]]].
    + split; [discriminate |]. intros (c & [Hin Hid] & _). exfalso. exact (Habs c Hin Hid).
    + discriminate.
    + intros (c & [Hin Hid] & _). exfalso. exact (Habs c Hin Hid).
    + intros _. split; [reflexivity | exact Hsame].
    + right. right. reflexivity.
    + rewrite Hsame. exact Hsame.
Qed.

Lemma removeComment_by_author_or_owner_witness :
  let v0 := fst (Video.make "V1" "C" 100 IdGen.init) in
  let v := fst (fst (Video.addComment "carol" "hi" 0 v0 1)) in
  map Comment.id (Video.comments v) = [2] /\
  OpResult.status (snd (Video.removeComment 2 "bob" "alice" v)) = PERMISSION_DENIED /\
  fst (Video.removeComment 2 "bob" "alice" v) = v /\
  OpResult.status (snd (Video.removeComment 2 "carol" "alice" v)) = SUCCESS /\
  OpResult.status (snd (Video.removeComment 2 "alice" "alice" v)) = SUCCESS /\
  OpResult.status (snd (Video.removeComment 9 "alice" "alice" v)) = NOT_FOUND.
Proof.
  intros v0 v.
  assert (Hd : List.NoDup (map Comment.id (Video.comments v))).
  { repeat constructor. intros []. }
  pose (c := Comment.mk 2 "carol" "hi" 0 0).
  assert (Hc : In c (Video.comments v) /\ Comment.id c = 2) by (split; [left |]; reflexivity).
  pose proof (removeComment_by_author_or_owner v 2 "bob" "alice" Hd) as Hbob.
  pose proof (removeComment_by_author_or_owner v 2 "carol" "alice" Hd) as Hcarol.
  pose proof (removeComment_by_author_or_owner v 2 "alice" "alice" Hd) as Halice.
  pose proof (removeComment_by_author_or_owner v 9 "alice" "alice" Hd) as Hnone.
  destruct (Video.removeComment 2 "bob" "alice" v) as [vb rb].
  destruct (Video.removeComment 2 "carol" "alice" v) as [vc rc].
  destruct (Video.removeComment 2 "alice" "alice" v) as [va ra].
  destruct (Video.removeComment 9 "alice" "alice" v) as [vn rn].
  cbn [fst snd].
  destruct Hbob as (_ & _ & Hbob & _).
  destruct Hcarol as (Hcarol & _).
  destruct Halice as (Halice & _).
  destruct Hnone as (_ & _ & _ & Hnone & _).
  split; [reflexivity |].
  assert (Hb : OpResult.status rb = PERMISSION_DENIED /\ vb = v).
  { apply Hbob. exists c. split; [exact Hc |].
    intros [H | H]; discriminate H. }
  destruct Hb as [Hb1 Hb2].
  split; [exact Hb1 | split; [exact Hb2 |]].
  split; [| split].
  - apply Hcarol. exists c. split; [exact Hc | left; reflexivity].
  - apply Halice. exists c. split; [exact Hc | right; reflexivity].
  - apply Hnone. intros x [[Hx | []] Hid]. subst x. discriminate Hid.
Defined.

(** ** Playlist: show *)

Section Show.
Variable videoMap : gmap Z Video.t.

(** The loop started at index [k] lists the identifiers that resolve,
    each with its position counted from [k]. *)
Lemma show_loop_resolved ids : forall k,
  Playlist.show_loop videoMap k ids =
    omap id (imap (fun i vid => Playlist.entry_line (k + i) <$> videoMap !! vid) ids).
Proof.
  induction ids as [|vid ids IH]; intros k; [reflexivity |].
  cbn [Playlist.show_loop imap omap]. rewrite Nat.add_0_r.
  assert (Hrest : Playlist.show_loop videoMap (S k) ids =
            omap id (imap ((fun i vid0 => Playlist.entry_line (k + i) <$> videoMap !! vid0) ∘ S) ids)).
  { rewrite IH. f_equal. apply imap_ext. intros i x _. cbn.
    rewrite Nat.add_succ_r. reflexivity. }
  destruct (videoMap !! vid) as [v|]; cbn; rewrite Hrest; reflexivity.
Qed.

Lemma entry_line_not_empty_line i v : Playlist.entry_line i v <> Playlist.empty_line.
Proof. unfold Playlist.entry_line, Playlist.empty_line. cbn. discriminate. Qed.

Lemma header_line_not_empty_line p : Playlist.header_line p <> Playlist.empty_line.
Proof. unfold Playlist.header_line, Playlist.empty_line. cbn. discriminate. Qed.

Lemma show_loop_no_empty_line ids : forall k,
  ~ In Playlist.empty_line (Playlist.show_loop videoMap k ids).
Proof.
  induction ids as [|vid ids IH]; intros k; cbn [Playlist.show_loop]; [intros [] |].
  destruct (videoMap !! vid) as [v|]; [| apply IH].
  intros [H | H]; [exact (entry_line_not_empty_line _ _ H) | exact (IH _ H)].
Qed.

(** When no identifier resolves the loop prints nothing. *)
Lemma show_loop_unresolved ids : forall k,
  (forall vid, In vid ids -> videoMap !! vid = None) ->
  Playlist.show_loop videoMap k ids = [].
Proof.
  induction ids as [|vid ids IH]; intros k H; [reflexivity |].
  cbn [Playlist.show_loop]. rewrite (H vid) by (left; reflexivity).
  apply IH. intros x Hx. apply H. right. exact Hx.
Qed.
End Show.

(** C4, as the code has it.  [show] prints the header, then: for a list
    with no entry the line "(empty)"; for a list with entries one line per
    identifier that resolves in the mapping, in order and numbered by its
    position in the list, identifiers that do not resolve being skipped
    silently.  The line "(empty)" is printed exactly when the list has no
    entry; a list with entries none of which resolves gives the header
    alone. *)
Theorem show_lists_resolved_ids (videoMap : gmap Z Video.t) (p : Playlist.t) :
  Playlist.show videoMap p =
    Playlist.header_line p ::
    match Playlist.videoIds p with
    | [] => [Playlist.empty_line]
    | _ :: _ => resolved_lines videoMap (Playlist.videoIds p)
    end /\
  (In Playlist.empty_line (Playlist.show videoMap p) <-> Playlist.videoIds p = []) /\
  (Playlist.videoIds p <> [] ->
   (forall vid, In vid (Playlist.videoIds p) -> videoMap !! vid = None) ->
   Playlist.show videoMap p = [Playlist.header_line p]).
Proof.
  unfold Playlist.show, resolved_lines.
  destruct (Playlist.videoIds p) as [|vid ids] eqn:E.
  - split; [reflexivity | split].
    + split; [reflexivity | intros _; right; left; reflexivity].
    + intros H. contradiction.
  - split; [| split].
    + rewrite show_loop_resolved. reflexivity.
    + split; [| discriminate].
      intros [H | H].
      * exfalso. exact (header_line_not_empty_line _ H).
      * exfalso. exact (show_loop_no_empty_line _ _ _ H).
    + intros _ H. rewrite show_loop_unresolved by exact H. reflexivity.
Qed.

Lemma show_lists_resolved_ids_witness :
  let v1 := fst (Video.make "C++ OOP Deep Dive" "KavyaTech" 900 0) in
  let v3 := fst (Video.make "Chill Loops" "IndieMusic" 300 2) in
  let videoMap : gmap Z Video.t := <[1 := v1]> (<[3 := v3]> ∅) in
  let p := Playlist.mk "mix" [1; 7; 3] in
  Playlist.show videoMap p =
    [ "Playlist: mix" ++ newline;
      "  [1] C++ OOP Deep Dive (id=1)" ++ newline;
      "  [3] Chill Loops (id=3)" ++ newline ].
Proof.
  intros v1 v3 videoMap p.
  destruct (show_lists_resolved_ids videoMap p) as (H & _ & _).
  rewrite H. reflexivity.
Defined.

(** C4, as the claim words it, fails: a playlist that holds the single
    identifier [7], shown against a mapping in which nothing resolves,
    prints its header and no "(empty)" line. *)
Lemma show_unresolved_counterexample :
  let p := Playlist.add 7 "gone" (Playlist.make "mix") in
  let videoMap : gmap Z Video.t := ∅ in
  Playlist.videoIds p = [7] /\
  videoMap !! 7 = None /\
  Playlist.show videoMap p = ["Playlist: mix" ++ newline] /\
  ~ In Playlist.empty_line (Playlist.show videoMap p).
Proof.
  cbv zeta. split; [reflexivity | split; [reflexivity | split; [reflexivity |]]].
  intros [H | []]. discriminate H.
Qed.

(** ** The statuses the core returns *)

Lemma raised_not_NOT_LOGGED_IN s : raised s -> s <> NOT_LOGGED_IN.
Proof. unfold raised. intros H E. subst s. intuition discriminate. Qed.

Ltac raised_by_cases := unfold raised; cbn; auto 6.

Lemma play_status v : raised (OpResult.status (snd (Video.play v))).
Proof. unfold Video.play. destruct (Video.playing v); raised_by_cases. Qed.

Lemma pause_status v : raised (OpResult.status (snd (Video.pause v))).
Proof. unfold Video.pause. destruct (Video.playing v); raised_by_cases. Qed.

Lemma addComment_status user tx now v counter :
  raised (OpResult.status (snd (Video.addComment user tx now v counter))).
Proof. raised_by_cases. Qed.

Lemma likeComment_status cid v :
  raised (OpResult.status (snd (Video.likeComment cid v))).
Proof.
  unfold Video.likeComment.
  destruct (Video.likeComment_loop cid (Video.comments v)) as [[cs n]|]; raised_by_cases.
Qed.

Lemma removeComment_loop_status cid requester channelOwner cs :
  raised (OpResult.status (snd (Video.removeComment_loop cid requester channelOwner cs))).
Proof.
  induction cs as [|c cs IH]; cbn [Video.removeComment_loop]; [raised_by_cases |].
  destruct (Comment.id c =? cid)%Z.
  - destruct (_ || _); raised_by_cases.
  - destruct (Video.removeComment_loop cid requester channelOwner cs). exact IH.
Qed.

Lemma removeComment_status cid requester channelOwner v :
  raised (OpResult.status (snd (Video.removeComment cid requester channelOwner v))).
Proof.
  unfold Video.removeComment.
  pose proof (removeComment_loop_status cid requester channelOwner (Video.comments v)) as H.
  destruct (Video.removeComment_loop _ _ _ _). exact H.
Qed.

Lemma subscribe_status user ch : raised (OpResult.status (snd (Channel.subscribe user ch))).
Proof. unfold Channel.subscribe. destruct (negb _); raised_by_cases. Qed.

Lemma unsubscribe_status user ch : raised (OpResult.status (snd (Channel.unsubscribe user ch))).
Proof. unfold Channel.unsubscribe. destruct (bool_decide _); raised_by_cases. Qed.

(** C8.  No operation of [Video], [Channel] or [User] that returns an
    OpResult ever returns the status [NOT_LOGGED_IN], whatever its
    arguments and the state of the objects it is called on ([Playlist] has
    no operation that returns an OpResult); every status returned is one of
    the five others. *)
Theorem core_never_returns_NOT_LOGGED_IN (c : CoreCall) :
  OpResult.status (result_of c) <> NOT_LOGGED_IN /\
  raised (OpResult.status (result_of c)).
Proof.
  assert (H : raised (OpResult.status (result_of c))).
  { destruct c as [v | v | user tx now v counter | cid v | cid rq own v
                  | user ch | user ch | v u | v tx now u counter | v cid u
                  | pname u | ch u]; cbn [result_of].
    - apply play_status.
    - apply pause_status.
    - apply addComment_status.
    - apply likeComment_status.
    - apply removeComment_status.
    - apply subscribe_status.
    - apply unsubscribe_status.
    - destruct v as [vd|]; [| raised_by_cases].
      rewrite watch_some. apply play_status.
    - destruct v as [vd|]; raised_by_cases.
    - destruct v as [vd|]; [| raised_by_cases].
      unfold User.likeComment.
      pose proof (likeComment_status cid vd) as H.
      destruct (Video.likeComment cid vd). exact H.
    - unfold User.createPlaylist.
      destruct (User.playlists u !! pname); raised_by_cases.
    - unfold User.subscribeChannel. destruct (negb _); [| raised_by_cases].
      pose proof (subscribe_status (User.username u) ch) as H.
      destruct (Channel.subscribe (User.username u) ch). exact H. }
  split; [apply raised_not_NOT_LOGGED_IN |]; exact H.
Qed.

(** ** Search by title *)

Lemma N_of_ascii_tolower c :
  N_of_ascii (tolower c) =
    (if (65 <=? N_of_ascii c) && (N_of_ascii c <=? 90)
     then N_of_ascii c + 32 else N_of_ascii c)%N.
Proof.
  unfold tolower. destruct ((65 <=? N_of_ascii c) && (N_of_ascii c <=? 90))%N eqn:E.
  - apply N_ascii_embedding. apply andb_true_iff in E as [_ E].
    apply N.leb_le in E. lia.
  - reflexivity.
Qed.

Lemma N_of_ascii_inj a b : N_of_ascii a = N_of_ascii b -> a = b.
Proof.
  intros H. rewrite <- (ascii_N_embedding a), <- (ascii_N_embedding b), H.
  reflexivity.
Qed.

(** [tolower] identifies exactly the bytes that are the same letter. *)
Lemma tolower_same_letter a b : tolower a = tolower b <-> same_letter a b.
Proof.
  unfold same_letter. cbv zeta. split.
  - intros H. apply (f_equal N_of_ascii) in H. rewrite !N_of_ascii_tolower in H.
    destruct (N.leb_spec 65 (N_of_ascii a)), (N.leb_spec (N_of_ascii a) 90),
             (N.leb_spec 65 (N_of_ascii b)), (N.leb_spec (N_of_ascii b) 90);
      cbn [andb] in H; lia.
  - intros H. apply N_of_ascii_inj. rewrite !N_of_ascii_tolower.
    destruct (N.leb_spec 65 (N_of_ascii a)), (N.leb_spec (N_of_ascii a) 90),
             (N.leb_spec 65 (N_of_ascii b)), (N.leb_spec (N_of_ascii b) 90);
      cbn [andb]; lia.
Qed.

Lemma transform_tolower_eq s : forall t,
  transform tolower s = transform tolower t <-> eq_ignore_case s t.
Proof.
  induction s as [|a s IH]; intros [|b t]; cbn [transform].
  - split; [constructor | reflexivity].
  - split; [discriminate | inversion 1].
  - split; [discriminate | inversion 1].
  - split.
    + intros [= Hc Hs]. constructor; [apply tolower_same_letter | apply IH]; assumption.
    + inversion 1; subst. f_equal; [apply tolower_same_letter | apply IH]; assumption.
Qed.

Lemma transform_app f s t : transform f (s ++ t) = transform f s ++ transform f t.
Proof.
  induction s as [|a s IH]; [reflexivity |].
  change (String (f a) (transform f (s ++ t)) = String (f a) (transform f s ++ transform f t)).
  rewrite IH. reflexivity.
Qed.

(** A transformed string splits where the original does. *)
Lemma transform_app_inv f x : forall s y,
  transform f s = x ++ y ->
  exists s1 s2, s = s1 ++ s2 /\ transform f s1 = x /\ transform f s2 = y.
Proof.
  induction x as [|a x IH]; intros s y H.
  - exists EmptyString, s. auto.
  - destruct s as [|b s]; [discriminate |]. cbn in H. injection H as Hb Hs.
    destruct (IH s y Hs) as (s1 & s2 & -> & H1 & H2).
    exists (String b s1), s2. cbn. rewrite Hb, H1. auto.
Qed.

Lemma starts_with_iff needle : forall hay,
  starts_with needle hay = true <-> exists post, hay = needle ++ post.
Proof.
  induction needle as [|a n IH]; intros hay; cbn [starts_with].
  - split; [intros _; exists hay; reflexivity | reflexivity].
  - destruct hay as [|b h].
    + split; [discriminate | intros (post & H); discriminate].
    + rewrite andb_true_iff, Ascii.eqb_eq, IH. split.
      * intros (-> & post & ->). exists post. reflexivity.
      * intros (post & [= -> ->]). split; [reflexivity | exists post; reflexivity].
Qed.

(** [find] returns a position exactly when the needle occurs, and the
    position it returns is that of an occurrence. *)
Lemma find_from_occurs needle hay : forall pos,
  find_from needle hay pos <> None <-> exists pre post, hay = pre ++ needle ++ post.
Proof.
  induction hay as [|b h IH]; intros pos; cbn [find_from].
  - destruct (starts_with needle EmptyString) eqn:E.
    + split; [intros _ | discriminate].
      apply starts_with_iff in E as (post & E). exists EmptyString, post. exact E.
    + split; [intros H; contradiction |].
      intros (pre & post & H). destruct pre; [| discriminate].
      cbn in H. assert (starts_with needle EmptyString = true) as E'
        by (apply starts_with_iff; exists post; exact H). congruence.
  - destruct (starts_with needle (String b h)) eqn:E.
    + split; [intros _ | discriminate].
      apply starts_with_iff in E as (post & E). exists EmptyString, post. exact E.
    + rewrite IH. split.
      * intros (pre & post & ->). exists (String b pre), post. reflexivity.
      * intros (pre & post & H). destruct pre as [|c pre].
        -- cbn in H. assert (starts_with needle (String b h) = true) as E'
             by (apply starts_with_iff; exists post; exact H). congruence.
        -- injection H as _ ->. exists pre, post. reflexivity.
Qed.

Lemma find_from_position needle hay : forall pos i,
  find_from needle hay pos = Some i ->
  exists pre post, hay = pre ++ needle ++ post /\ i = (pos + String.length pre)%nat.
Proof.
  induction hay as [|b h IH]; intros pos i; cbn [find_from].
  - destruct (starts_with needle EmptyString) eqn:E; [| discriminate].
    intros [= <-]. apply starts_with_iff in E as (post & E).
    exists EmptyString, post. cbn. split; [exact E | lia].
  - destruct (starts_with needle (String b h)) eqn:E.
    + intros [= <-]. apply starts_with_iff in E as (post & E).
      exists EmptyString, post. cbn. split; [exact E | lia].
    + intros H. apply IH in H as (pre & post & -> & ->).
      exists (String b pre), post. cbn. split; [reflexivity | lia].
Qed.

(** The test of the search loop is membership up to case. *)
Lemma title_matches_iff q v :
  title_matches (transform tolower q) v = true <->
  contains_ignore_case q (Video.title v).
Proof.
  unfold title_matches, find, contains_ignore_case.
  rewrite bool_decide_eq_true, find_from_occurs. split.
  - intros (pre & post & H).
    apply transform_app_inv in H as (s1 & s23 & Ht & H1 & H23).
    apply transform_app_inv in H23 as (s2 & s3 & -> & H2 & H3).
    exists s1, s2, s3. split; [exact Ht | apply transform_tolower_eq; exact H2].
  - intros (pre & mid & post & Ht & Hm). apply transform_tolower_eq in Hm.
    exists (transform tolower pre), (transform tolower post).
    rewrite Ht, !transform_app, Hm. reflexivity.
Qed.

Lemma search_In q (videos : gmap Z Video.t) k v :
  In (k, v) (search q videos) <->
  videos !! k = Some v /\ title_matches (transform tolower q) v = true.
Proof.
  unfold search. rewrite filter_In, <- list_elem_of_In, elem_of_map_to_list.
  reflexivity.
Qed.

(** C9.  For every query and every registry of videos, the search lists
    exactly the entries of the registry whose title contains the query up
    to case, each once; in particular the query "c++" lists a video titled
    "C++ OOP Deep Dive" and does not list one titled "Chill Loops". *)
Theorem search_case_insensitive (q : string) (videos : gmap Z Video.t) :
  (forall k v, In (k, v) (search q videos) <->
     videos !! k = Some v /\ contains_ignore_case q (Video.title v)) /\
  List.NoDup (search q videos) /\
  (forall k v, videos !! k = Some v -> Video.title v = "C++ OOP Deep Dive" ->
     In (k, v) (search "c++" videos)) /\
  (forall k v, Video.title v = "Chill Loops" -> ~ In (k, v) (search "c++" videos)).
Proof.
  split; [| split; [| split]].
  - intros k v. rewrite search_In, title_matches_iff. reflexivity.
  - unfold search. apply List.NoDup_filter. apply NoDup_ListNoDup.
    apply NoDup_map_to_list.
  - intros k v Hk Ht. apply search_In. split; [exact Hk |].
    unfold title_matches. rewrite Ht. reflexivity.
  - intros k v Ht H. apply search_In in H as [_ H].
    unfold title_matches in H. rewrite Ht in H. discriminate H.
Qed.

Lemma search_case_insensitive_witness :
  let v1 := fst (Video.make "C++ OOP Deep Dive" "KavyaTech" 900 0) in
  let v2 := fst (Video.make "Data Structures Overview" "KavyaTech" 720 1) in
  let v3 := fst (Video.make "Chill Loops" "IndieMusic" 300 2) in
  let videos : gmap Z Video.t := <[3 := v3]> (<[2 := v2]> (<[1 := v1]> ∅)) in
  In (1, v1) (search "c++" videos) /\
  ~ In (3, v3) (search "c++" videos) /\
  contains_ignore_case "c++" (Video.title v1) /\
  ~ contains_ignore_case "c++" (Video.title v3) /\
  In (3, v3) (search "LOOPS" videos).
Proof.
  intros v1 v2 v3 videos.
  destruct (search_case_insensitive "c++" videos) as (Hiff & _ & Hyes & Hno).
  destruct (search_case_insensitive "LOOPS" videos) as (Hiff' & _).
  assert (H1 : In (1, v1) (search "c++" videos)) by (apply Hyes; reflexivity).
  assert (H3 : ~ In (3, v3) (search "c++" videos)) by (apply Hno; reflexivity).
  split; [exact H1 | split; [exact H3 | split; [| split]]].
  - apply Hiff in H1 as [_ H]. exact H.
  - intros H. apply H3. apply Hiff. split; [reflexivity | exact H].
  - apply Hiff'. split; [reflexivity |].
    exists "Chill ", "Loops", EmptyString. split; [reflexivity |].
    repeat constructor; unfold same_letter; cbn; lia.
Defined.

(** ** IdGen and the identifiers of the entities *)

Lemma next_fresh c :
  in_int64 c -> c < LLONG_MAX -> IdGen.next c = (c + 1, c + 1).
Proof. intros Hr Hlt. unfold IdGen.next. rewrite wrap64_succ by assumption. reflexivity. Qed.

(** From process start, the [n]-th call returns [n], up to [LLONG_MAX]. *)
Lemma after_init n :
  (Z.of_N n <= LLONG_MAX) -> IdGen.after n IdGen.init = Z.of_N n.
Proof.
  unfold IdGen.after, IdGen.init. induction n as [|n IH] using N.peano_ind; intros Hb.
  - reflexivity.
  - rewrite N.iter_succ, IH by lia. cbn [IdGen.next snd].
    rewrite wrap64_succ; unfold in_int64, LLONG_MIN, LLONG_MAX in *; lia.
Qed.

Lemma World_ids_at w k v :
  videos w !! k = Some v ->
  exists A B,
    World_ids w = (A ++ Video_ids v ++ B)%list /\
    forall v' c',
      World_ids (mkWorld c' (<[k := v']> (videos w))) = (A ++ Video_ids v' ++ B)%list.
Proof.
  intros Hk. unfold World_ids. cbn [videos].
  exists (concat (map Video_ids (take k (videos w)))),
         (concat (map Video_ids (drop (S k) (videos w)))).
  split.
  - rewrite <- (take_drop_middle _ _ _ Hk) at 1.
    rewrite map_app, concat_app. reflexivity.
  - intros v' c'. rewrite insert_take_drop by (eapply lookup_lt_Some; exact Hk).
    rewrite map_app, concat_app. reflexivity.
Qed.

Lemma Video_ids_snoc v c :
  Video_ids (Video.set_comments v (Video.comments v ++ [c])) =
  (Video_ids v ++ [Comment.id c])%list.
Proof.
  unfold Video_ids. cbn [Video.set_comments Video.id Video.comments].
  rewrite map_app. reflexivity.
Qed.

Lemma Permutation_snoc_inside (A V B : list Z) n :
  (A ++ (V ++ [n]) ++ B)%list ≡ₚ n :: (A ++ V ++ B)%list.
Proof.
  rewrite <- (app_assoc V [n] B). cbn [app].
  rewrite (app_assoc A V (n :: B)), (app_assoc A V B).
  symmetry. apply Permutation_middle.
Qed.

Lemma removeComment_loop_sublist cid requester channelOwner cs :
  fst (Video.removeComment_loop cid requester channelOwner cs) `sublist_of` cs.
Proof.
  induction cs as [|c cs IH]; cbn [Video.removeComment_loop]; [constructor |].
  destruct (Comment.id c =? cid)%Z.
  - destruct (_ || _); cbn [fst]; [apply sublist_cons | ]; reflexivity.
  - destruct (Video.removeComment_loop cid requester channelOwner cs) as [cs' r].
    cbn [fst] in *. apply sublist_skip. exact IH.
Qed.

Lemma removeComment_ids cid requester channelOwner v :
  Video_ids (fst (Video.removeComment cid requester channelOwner v))
    `sublist_of` Video_ids v.
Proof.
  unfold Video.removeComment, Video_ids.
  pose proof (removeComment_loop_sublist cid requester channelOwner (Video.comments v)) as H.
  destruct (Video.removeComment_loop _ _ _ _) as [cs r]. cbn [fst] in *.
  cbn [Video.set_comments Video.id Video.comments].
  apply sublist_skip. apply (fmap_sublist Comment.id). exact H.
Qed.

(** A removal mints nothing and keeps the invariant. *)
Lemma step_remove w k cid requester channelOwner :
  World_ok w ->
  let '(w', o) := step (EvRemoveComment k cid requester channelOwner) w in
  World_ok w' /\ o = None /\ counter w' = counter w /\
  World_ids w' `sublist_of` World_ids w.
Proof.
  intros (Hr & Hle & Hnd). cbn [step].
  destruct (videos w !! k) as [v|] eqn:Hk.
  - pose proof (removeComment_ids cid requester channelOwner v) as Hsub.
    destruct (Video.removeComment cid requester channelOwner v) as [v' r].
    cbn [fst] in Hsub.
    destruct (World_ids_at w k v Hk) as (A & B & Hw & Hw').
    assert (Hs : World_ids (mkWorld (counter w) (<[k := v']> (videos w)))
                   `sublist_of` World_ids w).
    { rewrite Hw, Hw'. apply sublist_app; [reflexivity |].
      apply sublist_app; [exact Hsub | reflexivity]. }
    split; [| split; [reflexivity | split; [reflexivity | exact Hs]]].
    unfold World_ok. cbn [counter]. split; [assumption | split].
    + intros i Hi. apply Hle. eapply elem_of_sublist; eassumption.
    + eapply sublist_NoDup; eassumption.
  - split; [| split; [reflexivity | split; reflexivity]].
    unfold World_ok. auto.
Qed.

(** A construction mints the successor of the counter, as long as the
    counter is below [LLONG_MAX], and keeps the invariant; an operation on
    a video that does not exist does nothing. *)
Lemma step_mints e w :
  World_ok w -> counter w < LLONG_MAX -> mints e = true ->
  let '(w', o) := step e w in
  World_ok w' /\
  match o with
  | Some i =>
      i = counter w + 1 /\ counter w' = counter w + 1 /\
      World_ids w' ≡ₚ i :: World_ids w
  | None => w' = w
  end.
Proof.
  intros (Hr & Hle & Hnd) Hlt Hm.
  assert (Hr' : in_int64 (counter w + 1)) by (unfold in_int64 in *; lia).
  assert (Hfresh : counter w + 1 ∉ World_ids w).
  { intros Hin. apply Hle in Hin. lia. }
  destruct e as [ti u dur | k user tx now | k cid rq own]; [| | discriminate].
  - cbn [step]. unfold Video.make. rewrite next_fresh by assumption.
    cbn [Video.id]. split; [| split; [reflexivity | split; [reflexivity |]]].
    + assert (Hids : World_ids (mkWorld (counter w + 1)
                 (videos w ++ [Video.mk (counter w + 1) ti u dur 0 false []]))
               = (World_ids w ++ [counter w + 1])%list).
      { unfold World_ids. cbn [videos]. rewrite map_app, concat_app. reflexivity. }
      unfold World_ok. cbn [counter]. rewrite Hids. split; [assumption | split].
      * intros i [Hi | ->%list_elem_of_singleton]%elem_of_app; [apply Hle in Hi |]; lia.
      * apply NoDup_app. split; [assumption | split; [| apply NoDup_singleton]].
        intros i Hi ->%list_elem_of_singleton. contradiction.
    + unfold World_ids. cbn [videos]. rewrite map_app, concat_app. cbn.
      symmetry. apply Permutation_cons_append.
  - cbn [step]. destruct (videos w !! k) as [v|] eqn:Hk.
    + unfold Video.addComment, Comment.make. rewrite next_fresh by assumption.
      cbn [OpResult.id Comment.id].
      destruct (World_ids_at w k v Hk) as (A & B & Hw & Hw').
      assert (Hp : World_ids (mkWorld (counter w + 1)
                     (<[k := Video.set_comments v
                           (Video.comments v ++ [Comment.mk (counter w + 1) user tx 0 now])]>
                        (videos w)))
                   ≡ₚ (counter w + 1) :: World_ids w).
      { rewrite Hw, Hw', Video_ids_snoc. apply Permutation_snoc_inside. }
      split; [| split; [reflexivity | split; [reflexivity | exact Hp]]].
      unfold World_ok. cbn [counter]. split; [assumption | split].
      * intros i Hi. rewrite Hp in Hi.
        apply elem_of_cons in Hi as [-> | Hi]; [| apply Hle in Hi]; lia.
      * rewrite Hp. apply NoDup_cons. split; assumption.
    + split; [unfold World_ok; auto | reflexivity].
Qed.

Lemma creations_cons e es :
  creations (e :: es) = ((if mints e then 1 else 0) + creations es)%nat.
Proof. unfold creations. cbn [List.filter]. destruct (mints e); reflexivity. Qed.

(** Along a history whose constructions fit below [LLONG_MAX], the
    identifiers minted are increasing and lie above the counter the
    history started from, and every identifier carried by an entity at the
    end was carried at the start or minted on the way. *)
Lemma run_spec es : forall w,
  World_ok w -> counter w + Z.of_nat (creations es) <= LLONG_MAX ->
  let '(w', ids) := run es w in
  World_ok w' /\
  StronglySorted Z.lt ids /\
  Forall (fun i => counter w < i <= counter w') ids /\
  counter w <= counter w' /\
  (forall i, i ∈ World_ids w' -> i ∈ World_ids w \/ i ∈ ids).
Proof.
  induction es as [|e es IH]; intros w Hok Hb.
  - cbn [run]. split; [assumption | split; [constructor | split; [constructor | split; [lia | auto]]]].
  - cbn [run]. rewrite creations_cons in Hb. destruct (mints e) eqn:Hm.
    + assert (Hlt : counter w < LLONG_MAX) by lia.
      pose proof (step_mints e w Hok Hlt Hm) as Hstep.
      destruct (step e w) as [w1 [i|]].
      * destruct Hstep as (Hok1 & -> & Hc1 & Hp).
        specialize (IH w1 Hok1 ltac:(lia)).
        destruct (run es w1) as [w2 ids].
        destruct IH as (Hok2 & Hs & Hall & Hle & Hin).
        split; [assumption | split; [| split; [| split; [lia |]]]].
        -- constructor; [assumption |].
           eapply List.Forall_impl; [| exact Hall]. cbn. intros a Ha. lia.
        -- constructor; [lia |].
           eapply List.Forall_impl; [| exact Hall]. cbn. intros a Ha. lia.
        -- intros a Ha. apply Hin in Ha as [Ha | Ha].
           ++ rewrite Hp in Ha. apply elem_of_cons in Ha as [-> | Ha].
              ** right. left.
              ** left. assumption.
           ++ right. right. assumption.
      * destruct Hstep as (_ & ->).
        specialize (IH w Hok ltac:(lia)).
        destruct (run es w) as [w2 ids]. exact IH.
    + destruct e as [| | k cid rq own]; try discriminate.
      pose proof (step_remove w k cid rq own Hok) as Hstep.
      destruct (step (EvRemoveComment k cid rq own) w) as [w1 o].
      destruct Hstep as (Hok1 & -> & Hc1 & Hsub).
      specialize (IH w1 Hok1 ltac:(lia)).
      destruct (run es w1) as [w2 ids].
      destruct IH as (Hok2 & Hs & Hall & Hle & Hin).
      split; [assumption | split; [assumption | split; [| split; [lia |]]]].
      * eapply List.Forall_impl; [| exact Hall]. cbn. intros a Ha. lia.
      * intros a Ha. apply Hin in Ha as [Ha | Ha]; [left | right; assumption].
        eapply elem_of_sublist; eassumption.
Qed.

Lemma World_init_ok : World_ok World_init.
Proof.
  unfold World_ok, World_init, World_ids. cbn.
  split; [unfold in_int64, IdGen.init, LLONG_MIN, LLONG_MAX; lia | split].
  - intros i Hi. inversion Hi.
  - constructor.
Qed.

Lemma StronglySorted_lt_NoDup (l : list Z) : StronglySorted Z.lt l -> List.NoDup l.
Proof.
  induction 1 as [|a l Hs IH Hall]; constructor; [| assumption].
  intros Hin. rewrite List.Forall_forall in Hall. specialize (Hall a Hin). lia.
Qed.

(** The comments of a video of a reachable world carry pairwise distinct
    identifiers: the assumption under which [removeComment] is specified. *)
Lemma reachable_comment_ids_distinct es v :
  Z.of_nat (creations es) <= LLONG_MAX ->
  In v (videos (fst (run es World_init))) ->
  List.NoDup (map Comment.id (Video.comments v)).
Proof.
  intros Hb Hv.
  pose proof (run_spec es World_init World_init_ok) as H.
  cbn [World_init counter] in H. unfold IdGen.init in H. specialize (H ltac:(lia)).
  destruct (run es World_init) as [w ids]. cbn [fst] in Hv.
  destruct H as ((_ & _ & Hnd) & _).
  apply in_split in Hv as (A & B & Hv).
  unfold World_ids in Hnd. rewrite Hv, map_app, concat_app in Hnd.
  cbn [map concat] in Hnd.
  apply NoDup_app in Hnd as (_ & _ & Hnd).
  apply NoDup_app in Hnd as (Hnd & _ & _).
  unfold Video_ids in Hnd. apply NoDup_cons in Hnd as [_ Hnd].
  apply NoDup_ListNoDup. exact Hnd.
Qed.

(** C3, with the bound the 64-bit counter needs.  For every history of
    video constructions, comment constructions and comment removals that
    constructs at most [LLONG_MAX] entities since process start: each
    identifier minted is strictly greater than every identifier minted
    before it, so the identifiers minted are pairwise distinct, whether the
    entity is a video or a comment and whether or not it was removed since;
    and the entities alive at the end carry pairwise distinct identifiers,
    all of them minted along the history. *)
Theorem minted_ids_strictly_increase (es : list Event)
    (Hbound : Z.of_nat (creations es) <= LLONG_MAX) :
  let '(w, ids) := run es World_init in
  StronglySorted Z.lt ids /\
  List.NoDup ids /\
  Forall (fun i => 0 < i <= counter w) ids /\
  List.NoDup (World_ids w) /\
  (forall i, In i (World_ids w) -> In i ids).
Proof.
  pose proof (run_spec es World_init World_init_ok) as H.
  cbn [World_init counter] in H. unfold IdGen.init in H. specialize (H ltac:(lia)).
  destruct (run es World_init) as [w ids].
  destruct H as ((_ & _ & Hnd) & Hs & Hall & _ & Hin).
  split; [assumption | split; [| split; [assumption | split]]].
  - apply StronglySorted_lt_NoDup. assumption.
  - apply NoDup_ListNoDup. assumption.
  - intros i Hi. apply list_elem_of_In in Hi. apply Hin in Hi as [Hi | Hi].
    + inversion Hi.
    + apply list_elem_of_In. assumption.
Qed.

Lemma minted_ids_strictly_increase_witness :
  let es := [ EvNewVideo "V1" "C" 100;
              EvAddComment 0 "alice" "hi" 0;
              EvRemoveComment 0 2 "alice" "alice";
              EvAddComment 0 "bob" "again" 0;
              EvNewVideo "V2" "C" 50 ] in
  snd (run es World_init) = [1; 2; 3; 4] /\
  World_ids (fst (run es World_init)) = [1; 3; 4] /\
  StronglySorted Z.lt (snd (run es World_init)) /\
  List.NoDup (World_ids (fst (run es World_init))).
Proof.
  intros es.
  assert (Hbound : Z.of_nat (creations es) <= LLONG_MAX) by (vm_compute; discriminate).
  pose proof (minted_ids_strictly_increase es Hbound) as H.
  destruct (run es World_init) as [w ids] eqn:E.
  destruct H as (Hs & _ & _ & Hnd & _).
  assert (Hids : ids = [1; 2; 3; 4]).
  { change ids with (snd (w, ids)). rewrite <- E. reflexivity. }
  assert (Hw : World_ids w = [1; 3; 4]).
  { change w with (fst (w, ids)). rewrite <- E. reflexivity. }
  cbn [fst snd]. split; [exact Hids | split; [exact Hw | split; [exact Hs | exact Hnd]]].
Defined.

(** ** The counter at the end of its range *)

Lemma uploads_history_succ n :
  uploads_history (N.succ n) =
    EvNewVideo EmptyString EmptyString 0 :: uploads_history n.
Proof. unfold uploads_history. apply N.iter_succ. Qed.

(** A history of uploads that takes the counter one step past
    [LLONG_MAX] mints [LLONG_MIN]. *)
Lemma wrapped_id_minted n : forall w,
  in_int64 (counter w) ->
  counter w + Z.of_N n = LLONG_MAX + 1 ->
  In LLONG_MIN (snd (run (uploads_history n) w)).
Proof.
  induction n as [|n IH] using N.peano_ind; intros w Hr Hn.
  - exfalso. unfold in_int64 in Hr. cbn in Hn. lia.
  - rewrite uploads_history_succ. cbn [run step]. unfold Video.make.
    destruct (N.eq_dec n 0%N) as [-> | Hpos].
    + assert (Hc : counter w = LLONG_MAX) by (cbn in Hn; lia).
      rewrite Hc. unfold IdGen.next. rewrite wrap64_max. cbn [Video.id].
      destruct (run _ _) as [w2 ids]. left. reflexivity.
    + assert (Hlt : counter w < LLONG_MAX) by lia.
      rewrite next_fresh by assumption.
      match goal with
      | |- context [run (uploads_history n) ?w1] =>
          specialize (IH w1); destruct (run (uploads_history n) w1) as [w2 ids]
      end.
      cbn [counter snd Video.id] in *. right. apply IH.
      * unfold in_int64 in *. lia.
      * lia.
Qed.

(** The first upload of the process mints [1]; a history of uploads long
    enough to wrap the counter mints [LLONG_MIN] later on. *)
Lemma uploads_not_increasing n :
  Z.of_N n = LLONG_MAX + 1 ->
  ~ StronglySorted Z.lt (snd (run (uploads_history n) World_init)).
Proof.
  intros Hn. rewrite <- (N.succ_pred n) by (intros ->; discriminate Hn).
  assert (Hm : Z.of_N (N.pred n) = LLONG_MAX).
  { rewrite N2Z.inj_pred by (unfold LLONG_MAX in Hn; lia). lia. }
  clear Hn. generalize dependent (N.pred n). clear n. intros m Hm.
  rewrite uploads_history_succ. cbn [run step World_init counter videos].
  unfold Video.make, IdGen.init.
  rewrite next_fresh by (unfold in_int64; split; discriminate || reflexivity).
  match goal with
  | |- context [run (uploads_history m) ?w1] =>
      pose proof (wrapped_id_minted m w1) as Hmin;
      destruct (run (uploads_history m) w1) as [w2 ids]
  end.
  cbn [counter snd Video.id] in *.
  assert (Hin : In LLONG_MIN ids).
  { apply Hmin; [unfold in_int64; split; discriminate | lia]. }
  intros Hs. inversion Hs as [|a l _ Hall]; subst.
  rewrite List.Forall_forall in Hall. specialize (Hall _ Hin). discriminate Hall.
Qed.

(** C3, as the claim words it, fails.  After [2^63 - 1] calls from process
    start the counter stands at [LLONG_MAX]; the next call returns
    [LLONG_MIN], which is below every identifier issued before; so the
    identifiers minted by the history of [2^63] uploads are not
    increasing. *)
Lemma idgen_wraps_counterexample :
  IdGen.after 9223372036854775807 IdGen.init = LLONG_MAX /\
  fst (IdGen.next LLONG_MAX) = LLONG_MIN /\
  fst (IdGen.next LLONG_MAX) < fst (IdGen.next IdGen.init) /\
  ~ StronglySorted Z.lt (snd (run (uploads_history 9223372036854775808) World_init)).
Proof.
  split; [| split; [reflexivity | split; [reflexivity |]]].
  - rewrite after_init; [reflexivity | discriminate].
  - apply uploads_not_increasing. reflexivity.
Qed.

(** ** The scenarios of the specification, run on the model *)

(** alice creates channel "C" and uploads "V1": the video gets the
    identifier 1; her first [watch] plays it and counts a view, her second
    is rejected and the count stays at 1. *)
Example scenario_watch_twice :
  let alice := User.make "alice" in
  let ch := Channel.make "C" "alice" EmptyString in
  let '(ch1, v, c1) := Channel.upload "V1" 100 ch IdGen.init in
  let '(alice1, v1, r1) := User.watch (Some v) alice in
  let '(alice2, v2, r2) := User.watch v1 alice1 in
  Video.id v = 1 /\
  r1 = OpResult.make SUCCESS ("Playing " ++ dquote ++ "V1" ++ dquote ++ " (views: 1)") /\
  OpResult.status r2 = ALREADY_EXISTS /\
  (Video.views <$> v2) = Some 1 /\
  User.historyIds alice2 = [1; 1].
Proof. cbv zeta. repeat split. Qed.

(** alice comments on the video; bob, who is neither the author nor the
    channel owner, may not remove the comment; alice may; once removed the
    comment cannot be liked. *)
Example scenario_remove_comment :
  let alice := User.make "alice" in
  let v := fst (Video.make "V1" "C" 100 IdGen.init) in
  let '(v1, c1, r1) := User.addComment (Some v) "hi" 0 alice 1 in
  match v1 with
  | None => False
  | Some v1 =>
      let n := OpResult.id r1 in
      let '(v2, r2) := Video.removeComment n "bob" "alice" v1 in
      let '(v3, r3) := Video.removeComment n "alice" "alice" v2 in
      let '(v4, r4) := Video.likeComment n v3 in
      OpResult.status r1 = SUCCESS /\ n = 2 /\
      OpResult.status r2 = PERMISSION_DENIED /\ v2 = v1 /\
      OpResult.status r3 = SUCCESS /\ Video.comments v3 = [] /\
      OpResult.status r4 = NOT_FOUND
  end.
Proof. cbv zeta. repeat split. Qed.

(** * Further properties of the code *)

(** ** Video: likeComment and addComment *)

Section LikeComment.
Variable cid : Z.

Lemma likeComment_loop_absent cs :
  (forall c, In c cs -> Comment.id c <> cid) ->
  Video.likeComment_loop cid cs = None.
Proof.
  induction cs as [|c cs IH]; intros H; [reflexivity |]. cbn [Video.likeComment_loop].
  rewrite (proj2 (Z.eqb_neq _ _) (H c (or_introl eq_refl))).
  rewrite IH; [reflexivity |]. intros x Hx. apply H. right. exact Hx.
Qed.

Lemma likeComment_loop_first pre c post :
  (forall x, In x pre -> Comment.id x <> cid) ->
  Comment.id c = cid ->
  Video.likeComment_loop cid (pre ++ c :: post) =
    Some ((pre ++ Comment.like c :: post)%list, Comment.likes (Comment.like c)).
Proof.
  intros Hpre Hc. induction pre as [|x pre IH]; cbn [app Video.likeComment_loop].
  - rewrite (proj2 (Z.eqb_eq _ _) Hc). reflexivity.
  - rewrite (proj2 (Z.eqb_neq _ _) (Hpre x (or_introl eq_refl))).
    rewrite IH; [reflexivity |]. intros y Hy. apply Hpre. right. exact Hy.
Qed.
End LikeComment.

Lemma set_comments_same v : Video.set_comments v (Video.comments v) = v.
Proof. destruct v; reflexivity. Qed.

Lemma like_likes c :
  - 2 ^ 31 <= Comment.likes c < 2 ^ 31 - 1 ->
  Comment.likes (Comment.like c) = Comment.likes c + 1.
Proof.
  intros H. cbn [Comment.like Comment.likes]. unfold wrap32.
  rewrite Z.mod_small; lia.
Qed.

(** X1.  [likeComment] succeeds exactly when some comment carries the
    identifier; it then likes the first such comment, once, and touches
    nothing else: the other comments, the order of the list, and every
    identifier, author and text are as before.  When no comment carries
    the identifier it returns [NOT_FOUND] and the video is unchanged. *)
Theorem likeComment_likes_first_match (v : Video.t) (cid : Z) :
  let '(v', r) := Video.likeComment cid v in
  (OpResult.status r = SUCCESS <->
     exists c, In c (Video.comments v) /\ Comment.id c = cid) /\
  (OpResult.status r = SUCCESS \/ OpResult.status r = NOT_FOUND) /\
  (OpResult.status r = NOT_FOUND -> v' = v) /\
  (OpResult.status r = SUCCESS ->
     exists pre c post,
       Video.comments v = (pre ++ c :: post)%list /\
       (forall x, In x pre -> Comment.id x <> cid) /\ Comment.id c = cid /\
       Video.comments v' = (pre ++ Comment.like c :: post)%list /\
       Comment.likes (Comment.like c) = wrap32 (Comment.likes c + 1) /\
       (- 2 ^ 31 <= Comment.likes c < 2 ^ 31 - 1 ->
          Comment.likes (Comment.like c) = Comment.likes c + 1) /\
       OpResult.message r =
         "Liked comment " ++ to_string cid ++ " (likes="
           ++ to_string (Comment.likes (Comment.like c)) ++ ")") /\
  map Comment.id (Video.comments v') = map Comment.id (Video.comments v) /\
  map Comment.author (Video.comments v') = map Comment.author (Video.comments v) /\
  map Comment.text (Video.comments v') = map Comment.text (Video.comments v) /\
  Video.set_comments v' (Video.comments v) = v.
Proof.
  unfold Video.likeComment.
  destruct (List.Exists_dec (fun c => Comment.id c = cid) (Video.comments v)
              (fun c => Z.eq_dec (Comment.id c) cid)) as [Hex | Hno].
  - apply List.Exists_exists in Hex.
    destruct (first_with_id cid _ Hex) as (pre & c & post & Hcs & Hc & Hpre).
    assert (Hloop : Video.likeComment_loop cid (Video.comments v) =
              Some ((pre ++ Comment.like c :: post)%list, Comment.likes (Comment.like c))).
    { rewrite Hcs. apply likeComment_loop_first; assumption. }
    rewrite Hloop.
    cbn [Video.comments Video.set_comments OpResult.status OpResult.message OpResult.make].
    split; [split; [intros _; exact Hex | reflexivity] |].
    split; [left; reflexivity |].
    split; [discriminate |].
    split.
    { intros _. exists pre, c, post. repeat split; try assumption.
      apply like_likes. }
    rewrite Hcs, !map_app. cbn [map Comment.like Comment.id Comment.author Comment.text].
    split; [reflexivity | split; [reflexivity | split; [reflexivity |]]].
    rewrite <- Hcs. destruct v; reflexivity.
  - assert (Habs : forall c, In c (Video.comments v) -> Comment.id c <> cid).
    { intros c Hin Hid. apply Hno. apply List.Exists_exists. exists c. auto. }
    rewrite (likeComment_loop_absent cid _ Habs).
    cbn [OpResult.status OpResult.make].
    split; [split; [discriminate |] |].
    { intros (c & Hin & Hid). exfalso. exact (Habs c Hin Hid). }
    split; [right; reflexivity |].
    split; [reflexivity |].
    split; [discriminate |].
    repeat split. apply set_comments_same.
Qed.

(** What [addComment] does when the counter is below [LLONG_MAX]. *)
Lemma addComment_fresh user tx now v counter :
  in_int64 counter -> counter < LLONG_MAX ->
  Video.addComment user tx now v counter =
    (Video.set_comments v (Video.comments v ++ [Comment.mk (counter + 1) user tx 0 now]),
     counter + 1,
     OpResult.mk SUCCESS ("Comment added by " ++ user) (counter + 1)).
Proof.
  intros Hr Hlt. unfold Video.addComment, Comment.make.
  rewrite next_fresh by assumption. reflexivity.
Qed.

(** X2.  A comment that was just added can be liked and removed under the
    identifier [addComment] returned: on a video whose comments carry
    identifiers up to the counter, [likeComment] with the returned
    identifier succeeds and reports one like, and [removeComment] with it,
    asked by the author (or by the channel owner), succeeds and gives back
    the video as it was before the comment was added. *)
Theorem addComment_then_like_or_remove
    (v : Video.t) (user tx : string) (now counter : Z) (requester channelOwner : string)
    (Hrange : in_int64 counter) (Hroom : counter < LLONG_MAX)
    (Hold : forall c, In c (Video.comments v) -> Comment.id c <= counter)
    (Hmay : requester = user \/ requester = channelOwner) :
  let '(v1, counter1, r1) := Video.addComment user tx now v counter in
  let cid := OpResult.id r1 in
  OpResult.status r1 = SUCCESS /\ cid = counter + 1 /\ counter1 = counter + 1 /\
  length (Video.comments v1) = S (length (Video.comments v)) /\
  (let '(v2, r2) := Video.likeComment cid v1 in
   OpResult.status r2 = SUCCESS /\
   OpResult.message r2 = "Liked comment " ++ to_string cid ++ " (likes=1)" /\
   Video.comments v2 =
     (Video.comments v ++ [Comment.mk cid user tx 1 now])%list) /\
  (let '(v3, r3) := Video.removeComment cid requester channelOwner v1 in
   OpResult.status r3 = SUCCESS /\ v3 = v).
Proof.
  rewrite addComment_fresh by assumption.
  cbn [OpResult.id OpResult.status].
  assert (Hpre : forall x, In x (Video.comments v) -> Comment.id x <> counter + 1).
  { intros x Hx. specialize (Hold x Hx). lia. }
  split; [reflexivity | split; [reflexivity | split; [reflexivity | split; [| split]]]].
  - cbn [Video.set_comments Video.comments]. rewrite length_app. cbn. lia.
  - unfold Video.likeComment. cbn [Video.set_comments Video.comments].
    rewrite (likeComment_loop_first (counter + 1) _
               (Comment.mk (counter + 1) user tx 0 now) [] Hpre eq_refl).
    cbn. repeat split.
  - unfold Video.removeComment. cbn [Video.set_comments Video.comments].
    rewrite (removeComment_loop_first (counter + 1) requester channelOwner _
               (Comment.mk (counter + 1) user tx 0 now) [] Hpre eq_refl).
    cbn [Comment.author].
    replace (String.eqb requester user || String.eqb requester channelOwner) with true.
    + rewrite app_nil_r. cbn. split; [reflexivity | destruct v; reflexivity].
    + symmetry. apply orb_true_iff. rewrite !String.eqb_eq. exact Hmay.
Qed.

Lemma addComment_then_like_or_remove_witness :
  let v := fst (Video.make "V1" "C" 100 IdGen.init) in
  let '(v1, counter1, r1) := Video.addComment "carol" "hi" 0 v 1 in
  OpResult.id r1 = 2 /\
  OpResult.status (snd (Video.likeComment 2 v1)) = SUCCESS /\
  fst (Video.removeComment 2 "alice" "alice" v1) = v.
Proof.
  intros v.
  assert (Hr : in_int64 1) by (unfold in_int64; split; discriminate).
  assert (Hold : forall c, In c (Video.comments v) -> Comment.id c <= 1) by (intros c []).
  pose proof (addComment_then_like_or_remove v "carol" "hi" 0 1 "alice" "alice"
                Hr eq_refl Hold (or_intror eq_refl)) as H.
  destruct (Video.addComment "carol" "hi" 0 v 1) as [[v1 counter1] r1].
  destruct H as (_ & Hid & _ & _ & Hlike & Hrem).
  rewrite Hid in Hlike, Hrem. cbv zeta in Hrem, Hlike.
  change (1 + 1) with 2 in Hid, Hlike, Hrem.
  destruct (Video.likeComment 2 v1) as [v2 r2].
  destruct (Video.removeComment 2 "alice" "alice" v1) as [v3 r3].
  split; [exact Hid | split; [apply Hlike | apply Hrem]].
Defined.

(** ** Video: a removed comment *)

Lemma removeComment_keeps_distinct cid requester channelOwner v :
  List.NoDup (map Comment.id (Video.comments v)) ->
  List.NoDup (map Comment.id
                (Video.comments (fst (Video.removeComment cid requester channelOwner v)))).
Proof.
  intros Hnd. unfold Video.removeComment.
  pose proof (removeComment_loop_sublist cid requester channelOwner (Video.comments v)) as H.
  destruct (Video.removeComment_loop _ _ _ _) as [cs r]. cbn [fst Video.set_comments Video.comments] in *.
  apply NoDup_ListNoDup. apply NoDup_ListNoDup in Hnd.
  eapply sublist_NoDup; [exact Hnd |]. apply (fmap_sublist Comment.id). exact H.
Qed.

(** X3.  On a video whose comments carry pairwise distinct identifiers,
    once [removeComment] has succeeded the identifier designates nothing
    any more: liking it, or removing it again whoever asks, returns
    [NOT_FOUND] and changes nothing.  Whatever the outcome, the remaining
    comments still carry pairwise distinct identifiers. *)
Theorem removed_comment_is_gone
    (v : Video.t) (cid : Z) (requester channelOwner : string)
    (Hdistinct : List.NoDup (map Comment.id (Video.comments v))) :
  let '(v', r) := Video.removeComment cid requester channelOwner v in
  List.NoDup (map Comment.id (Video.comments v')) /\
  (OpResult.status r = SUCCESS ->
     (forall c, In c (Video.comments v') -> Comment.id c <> cid) /\
     Video.likeComment cid v' = (v', OpResult.make NOT_FOUND "Comment not found") /\
     (forall requester' channelOwner',
        Video.removeComment cid requester' channelOwner' v' =
          (v', OpResult.make NOT_FOUND "Comment not found"))).
Proof.
  pose proof (removeComment_keeps_distinct cid requester channelOwner v Hdistinct) as Hkeep.
  unfold Video.removeComment in *.
  destruct (List.Exists_dec (fun c => Comment.id c = cid) (Video.comments v)
              (fun c => Z.eq_dec (Comment.id c) cid)) as [Hex | Hno].
  - apply List.Exists_exists in Hex.
    destruct (first_with_id cid _ Hex) as (pre & c & post & Hcs & Hc & Hpre).
    rewrite Hcs in *.
    rewrite (removeComment_loop_first _ _ _ pre c post Hpre Hc) in *.
    destruct (String.eqb requester (Comment.author c) || String.eqb requester channelOwner);
      cbn [fst Video.set_comments Video.comments OpResult.status OpResult.make] in *;
      (split; [exact Hkeep |]); [| discriminate].
    intros _.
    assert (Hgone : forall x, In x (pre ++ post)%list -> Comment.id x <> cid).
    { intros x Hx. rewrite <- Hc. eapply erased_others; [exact Hdistinct | exact Hx]. }
    split; [exact Hgone | split].
    + unfold Video.likeComment. cbn [Video.set_comments Video.comments].
      rewrite (likeComment_loop_absent cid _ Hgone). reflexivity.
    + intros rq own. cbn [Video.set_comments Video.comments].
      rewrite (removeComment_loop_absent cid rq own _ Hgone). reflexivity.
  - assert (Habs : forall c, In c (Video.comments v) -> Comment.id c <> cid).
    { intros c Hin Hid. apply Hno. apply List.Exists_exists. exists c. auto. }
    rewrite (removeComment_loop_absent _ _ _ _ Habs) in *.
    cbn [fst OpResult.status OpResult.make] in *. split; [exact Hkeep | discriminate].
Qed.

Lemma removed_comment_is_gone_witness :
  let v0 := fst (Video.make "V1" "C" 100 IdGen.init) in
  let v := fst (fst (Video.addComment "carol" "hi" 0 v0 1)) in
  let v' := fst (Video.removeComment 2 "carol" "alice" v) in
  OpResult.status (snd (Video.likeComment 2 v')) = NOT_FOUND /\
  OpResult.status (snd (Video.removeComment 2 "alice" "alice" v')) = NOT_FOUND.
Proof.
  intros v0 v v'.
  assert (Hd : List.NoDup (map Comment.id (Video.comments v))).
  { repeat constructor. intros []. }
  pose proof (removed_comment_is_gone v 2 "carol" "alice" Hd) as H.
  subst v'. destruct (Video.removeComment 2 "carol" "alice" v) as [v' r] eqn:E.
  assert (Hs : OpResult.status r = SUCCESS).
  { change r with (snd (v', r)). rewrite <- E. reflexivity. }
  destruct H as (_ & H). destruct (H Hs) as (_ & Hlike & Hrem).
  cbn [fst]. rewrite Hlike, (Hrem "alice" "alice"). split; reflexivity.
Defined.

(** ** Channel: unsubscribe, and sequences of calls *)

(** X4.  [unsubscribe] returns [SUCCESS] exactly when the user was
    subscribed and [NOT_FOUND] otherwise; afterwards the user is not
    subscribed, every other subscriber is kept, and the name, the owner,
    the description and the uploads of the channel are untouched.  A
    [NOT_FOUND] leaves the channel as it was. *)
Theorem unsubscribe_removes_subscriber (ch : Channel.t) (user : string) :
  let '(ch', r) := Channel.unsubscribe user ch in
  (OpResult.status r = SUCCESS <-> user ∈ Channel.subscribers ch) /\
  (OpResult.status r = NOT_FOUND <-> user ∉ Channel.subscribers ch) /\
  (user ∉ Channel.subscribers ch') /\
  (forall other, other <> user ->
     (other ∈ Channel.subscribers ch' <-> other ∈ Channel.subscribers ch)) /\
  Channel.subscribers ch' = Channel.subscribers ch ∖ {[user]} /\
  Channel.set_subscribers ch' (Channel.subscribers ch) = ch /\
  (OpResult.status r = NOT_FOUND -> ch' = ch).
Proof.
  unfold Channel.unsubscribe.
  destruct (bool_decide (user ∈ Channel.subscribers ch)) eqn:E.
  - apply bool_decide_eq_true in E.
    cbn [Channel.set_subscribers Channel.subscribers OpResult.status OpResult.make].
    split; [split; [intros _; exact E | reflexivity] |].
    split; [split; [discriminate | (intros H; contradiction)] |].
    split; [set_solver |].
    split; [intros other Ho; set_solver |].
    split; [reflexivity |].
    split; [destruct ch; reflexivity | discriminate].
  - apply bool_decide_eq_false in E.
    cbn [Channel.set_subscribers Channel.subscribers OpResult.status OpResult.make].
    split; [split; [discriminate | (intros H; contradiction)] |].
    split; [split; [intros _; exact E | reflexivity] |].
    split; [exact E |].
    split; [intros other Ho; reflexivity |].
    split; [set_solver |].
    split; [destruct ch; reflexivity | reflexivity].
Qed.

(** X5.  Subscribing a user who was not subscribed and unsubscribing them
    again gives back the channel as it was, both calls returning
    [SUCCESS]. *)
Theorem subscribe_then_unsubscribe (ch : Channel.t) (user : string)
    (Hnew : user ∉ Channel.subscribers ch) :
  let '(ch1, r1) := Channel.subscribe user ch in
  let '(ch2, r2) := Channel.unsubscribe user ch1 in
  OpResult.status r1 = SUCCESS /\ OpResult.status r2 = SUCCESS /\ ch2 = ch.
Proof.
  rewrite subscribe_new by assumption. unfold Channel.unsubscribe.
  cbn [Channel.set_subscribers Channel.subscribers Channel.name Channel.owner
       Channel.description Channel.uploads].
  rewrite bool_decide_eq_true_2 by set_solver.
  split; [reflexivity | split; [reflexivity |]].
  replace (({[user]} ∪ Channel.subscribers ch) ∖ {[user]}) with (Channel.subscribers ch)
    by set_solver.
  destruct ch; reflexivity.
Qed.

Lemma subscribe_then_unsubscribe_witness :
  let ch := Channel.make "KavyaTech" "system" "C++ tutorials" in
  fst (Channel.unsubscribe "bob" (fst (Channel.subscribe "bob" ch))) = ch.
Proof.
  intros ch.
  pose proof (subscribe_then_unsubscribe ch "bob"
                (not_elem_of_empty (C := gset string) "bob")) as H.
  destruct (Channel.subscribe "bob" ch) as [ch1 r1]. cbn [fst].
  destruct (Channel.unsubscribe "bob" ch1) as [ch2 r2].
  cbn [fst]. apply H.
Defined.

Lemma upload_fresh ti dur ch counter :
  in_int64 counter -> counter < LLONG_MAX ->
  Channel.upload ti dur ch counter =
    (Channel.mk (Channel.name ch) (Channel.owner ch) (Channel.description ch)
       (Channel.uploads ch ++ [Video.mk (counter + 1) ti (Channel.name ch) dur 0 false []])
       (Channel.subscribers ch),
     Video.mk (counter + 1) ti (Channel.name ch) dur 0 false [],
     counter + 1).
Proof.
  intros Hr Hlt. unfold Channel.upload, Video.make.
  rewrite next_fresh by assumption. reflexivity.
Qed.

Lemma channel_calls_spec cs : forall ch counter,
  in_int64 counter ->
  counter + Z.of_nat (length (uploaded cs)) <= LLONG_MAX ->
  let '(ch', counter') := channel_calls cs ch counter in
  Channel.name ch' = Channel.name ch /\
  Channel.owner ch' = Channel.owner ch /\
  Channel.description ch' = Channel.description ch /\
  counter' = counter + Z.of_nat (length (uploaded cs)) /\
  Channel.uploads ch' =
    (Channel.uploads ch ++ videos_of (Channel.name ch) counter (uploaded cs))%list.
Proof.
  induction cs as [|c cs IH]; intros ch counter Hr Hb.
  - cbn. rewrite app_nil_r. repeat split. lia.
  - cbn [channel_calls]. destruct c as [ti dur | user | user].
    + cbn [uploaded length] in Hb. cbn [channel_call].
      rewrite upload_fresh by (assumption || lia).
      match goal with |- context [channel_calls cs ?c1 ?k1] =>
        specialize (IH c1 k1) end.
      destruct (channel_calls cs _ _) as [ch' counter'].
      cbn [Channel.name Channel.owner Channel.description Channel.uploads] in IH.
      destruct IH as (Hn & Ho & Hd & Hc & Hu);
        [unfold in_int64 in *; lia | lia |].
      cbn [uploaded videos_of length].
      rewrite Hu, <- app_assoc. cbn [app].
      repeat split; try assumption. lia.
    + cbn [channel_call uploaded].
      specialize (IH (fst (Channel.subscribe user ch)) counter Hr Hb).
      destruct (channel_calls cs _ _) as [ch' counter'].
      unfold Channel.subscribe in IH.
      destruct (negb _) in IH; exact IH.
    + cbn [channel_call uploaded].
      specialize (IH (fst (Channel.unsubscribe user ch)) counter Hr Hb).
      destruct (channel_calls cs _ _) as [ch' counter'].
      unfold Channel.unsubscribe in IH.
      destruct (bool_decide _) in IH; exact IH.
Qed.

Lemma videos_of_spec n l : forall counter,
  map Video.id (videos_of n counter l) =
    map (fun i => counter + Z.of_nat i) (seq 1 (length l)) /\
  map (fun v => (Video.title v, Video.durationSec v)) (videos_of n counter l) = l /\
  List.Forall (fun v => Video.uploader v = n /\ Video.views v = 0 /\
                        Video.playing v = false /\ Video.comments v = [])
              (videos_of n counter l).
Proof.
  induction l as [|[ti dur] l IH]; intros counter; [repeat split; constructor |].
  destruct (IH (counter + 1)) as (Hid & Ht & Hall).
  cbn [videos_of map length seq]. repeat split.
  - rewrite Hid, <- (seq_shift (length l) 1), map_map.
    f_equal; try lia. apply map_ext. intros i. lia.
  - rewrite Ht. reflexivity.
  - constructor; [repeat split | exact Hall].
Qed.

(** X6.  Whatever sequence of uploads, subscriptions and unsubscriptions a
    new channel goes through, its name, owner and description stay those
    it was created with; its uploads are exactly the videos uploaded, in
    upload order, with consecutive identifiers above the counter the
    sequence started from; and each of them carries the channel's name as
    uploader and starts with no view, not playing and without comment. *)
Theorem channel_calls_keep_identity
    (cs : list ChannelCall) (n o d : string) (counter : Z)
    (Hrange : in_int64 counter)
    (Hbound : counter + Z.of_nat (length (uploaded cs)) <= LLONG_MAX) :
  let '(ch, counter') := channel_calls cs (Channel.make n o d) counter in
  Channel.name ch = n /\ Channel.owner ch = o /\ Channel.description ch = d /\
  counter' = counter + Z.of_nat (length (uploaded cs)) /\
  map (fun v => (Video.title v, Video.durationSec v)) (Channel.uploads ch) = uploaded cs /\
  map Video.id (Channel.uploads ch) =
    map (fun i => counter + Z.of_nat i) (seq 1 (length (uploaded cs))) /\
  List.Forall (fun v => Video.uploader v = n /\ Video.views v = 0 /\
                        Video.playing v = false /\ Video.comments v = [])
              (Channel.uploads ch).
Proof.
  pose proof (channel_calls_spec cs (Channel.make n o d) counter Hrange Hbound) as H.
  destruct (channel_calls cs (Channel.make n o d) counter) as [ch counter'].
  cbn [Channel.make Channel.name Channel.owner Channel.description Channel.uploads app] in H.
  destruct H as (Hn & Ho & Hd & Hc & Hu).
  destruct (videos_of_spec n (uploaded cs) counter) as (Hid & Ht & Hall).
  rewrite Hu. repeat split; assumption.
Qed.

Lemma channel_calls_keep_identity_witness :
  let cs := [CallUpload "C++ OOP Deep Dive" 900; CallSubscribe "bob";
             CallUpload "Data Structures Overview" 720; CallUnsubscribe "bob"] in
  let '(ch, counter') :=
    channel_calls cs (Channel.make "KavyaTech" "system" "C++ tutorials") IdGen.init in
  Channel.name ch = "KavyaTech" /\ counter' = 2 /\
  map Video.id (Channel.uploads ch) = [1; 2].
Proof.
  intros cs.
  assert (Hr : in_int64 IdGen.init) by (unfold in_int64; split; discriminate).
  assert (Hb : IdGen.init + Z.of_nat (length (uploaded cs)) <= LLONG_MAX) by discriminate.
  pose proof (channel_calls_keep_identity cs "KavyaTech" "system" "C++ tutorials"
                IdGen.init Hr Hb) as H.
  destruct (channel_calls cs _ _) as [ch counter'].
  destruct H as (Hn & _ & _ & Hc & _ & Hid & _).
  split; [exact Hn | split; [exact Hc | exact Hid]].
Defined.

(** ** User: playlists and subscriptions *)

(** X7.  [createPlaylist] succeeds exactly when the user has no playlist
    of that name; the new playlist is then found by [getPlaylist], empty
    and carrying the name.  When the name is taken it returns
    [ALREADY_EXISTS] and the user, the existing playlist with its videos
    included, is unchanged.  In both cases every playlist of another name,
    the subscriptions and the watch history are kept, and a second
    creation under the same name is rejected. *)
Theorem createPlaylist_registers_once (u : User.t) (pname : string) :
  let '(u', r) := User.createPlaylist pname u in
  (OpResult.status r = SUCCESS <-> User.getPlaylist pname u = None) /\
  (OpResult.status r = ALREADY_EXISTS <-> User.getPlaylist pname u <> None) /\
  (OpResult.status r = SUCCESS ->
     User.getPlaylist pname u' = Some (Playlist.make pname) /\
     Playlist.videoIds (Playlist.make pname) = []) /\
  (OpResult.status r = ALREADY_EXISTS -> u' = u) /\
  (forall other, other <> pname ->
     User.getPlaylist other u' = User.getPlaylist other u) /\
  User.username u' = User.username u /\
  User.subscriptions u' = User.subscriptions u /\
  User.historyIds u' = User.historyIds u /\
  (let '(u'', r') := User.createPlaylist pname u' in
   OpResult.status r' = ALREADY_EXISTS /\ u'' = u').
Proof.
  unfold User.createPlaylist, User.getPlaylist.
  destruct (User.playlists u !! pname) as [p|] eqn:E.
  - cbn [OpResult.status OpResult.make]. rewrite E.
    split; [split; discriminate |].
    split; [split; [discriminate | reflexivity] |].
    split; [discriminate |].
    repeat split.
  - cbn [OpResult.status OpResult.make User.playlists User.username
         User.subscriptions User.historyIds].
    rewrite lookup_insert_eq.
    split; [split; reflexivity |].
    split; [split; [discriminate | (intros H; contradiction)] |].
    split; [intros _; split; reflexivity |].
    split; [discriminate |].
    split; [intros other Ho; apply lookup_insert_ne; congruence |].
    repeat split.
Qed.

(** X8.  [subscribeChannel] leaves the channel's name in the user's
    subscriptions, whatever it returns.  It returns [SUCCESS] exactly when
    neither side knew of the subscription, and then both sides record it.
    When the user already holds the subscription nothing changes at all,
    even if the channel does not list the user.  When only the channel
    listed the user, the call returns [ALREADY_EXISTS] and yet adds the
    channel to the user's subscriptions.  If the two sides agreed before
    the call they agree after it. *)
Theorem subscribeChannel_two_sides (u : User.t) (ch : Channel.t) :
  let mine := Channel.name ch ∈ User.subscriptions u in
  let theirs := User.username u ∈ Channel.subscribers ch in
  let '(u', ch', r) := User.subscribeChannel ch u in
  Channel.name ch ∈ User.subscriptions u' /\
  (OpResult.status r = SUCCESS <-> ~ mine /\ ~ theirs) /\
  (OpResult.status r = SUCCESS \/ OpResult.status r = ALREADY_EXISTS) /\
  (mine -> u' = u /\ ch' = ch) /\
  (~ mine ->
     User.subscriptions u' = {[Channel.name ch]} ∪ User.subscriptions u /\
     User.username u ∈ Channel.subscribers ch' /\
     (theirs -> ch' = ch /\ OpResult.status r = ALREADY_EXISTS)) /\
  ((mine <-> theirs) ->
     (Channel.name ch ∈ User.subscriptions u' <->
      User.username u ∈ Channel.subscribers ch')) /\
  User.username u' = User.username u /\
  User.historyIds u' = User.historyIds u /\
  User.playlists u' = User.playlists u /\
  Channel.name ch' = Channel.name ch /\
  Channel.uploads ch' = Channel.uploads ch.
Proof.
  cbv zeta. unfold User.subscribeChannel.
  destruct (bool_decide (Channel.name ch ∈ User.subscriptions u)) eqn:E.
  - apply bool_decide_eq_true in E. cbn [negb OpResult.status OpResult.make].
    split; [exact E |].
    split; [split; [discriminate | (intros [H _]; contradiction)] |].
    split; [right; reflexivity |].
    split; [intros _; split; reflexivity |].
    split; [intros H; contradiction |].
    split; [intros H; exact H |].
    repeat split.
  - apply bool_decide_eq_false in E. cbn [negb].
    destruct (decide (User.username u ∈ Channel.subscribers ch)) as [T | T].
    + rewrite subscribe_again by assumption.
      cbn [User.subscriptions User.username User.historyIds User.playlists
           OpResult.status OpResult.make].
      split; [set_solver |].
      split; [split; [discriminate | (intros [_ H]; contradiction)] |].
      split; [right; reflexivity |].
      split; [intros H; contradiction |].
      split; [intros _; split; [reflexivity | split; [exact T | intros _; split; reflexivity]] |].
      split; [intros _; split; [intros _; exact T | intros _; set_solver] |].
      repeat split.
    + rewrite subscribe_new by assumption.
      cbn [User.subscriptions User.username User.historyIds User.playlists
           Channel.set_subscribers Channel.subscribers Channel.name Channel.uploads
           OpResult.status OpResult.make].
      split; [set_solver |].
      split; [split; [intros _; split; assumption | reflexivity] |].
      split; [left; reflexivity |].
      split; [intros H; contradiction |].
      split; [intros _; split; [reflexivity | split; [set_solver | intros H; contradiction]] |].
      split; [intros _; split; intros _; set_solver |].
      repeat split.
Qed.

(** ** Playlist: add *)



(** ** Playing a playlist from the menu *)

Lemma set_playback_twice v vw p vw' p' :
  Video.set_playback (Video.set_playback v vw p) vw' p' = Video.set_playback v vw' p'.
Proof. reflexivity. Qed.

(** [play()] then [pause()] leaves the video paused and counts a view
    exactly when the video was paused before. *)
Lemma play_and_pause_spec v :
  in_int64 (Video.views v) -> Video.views v < LLONG_MAX ->
  play_and_pause v =
    Video.set_playback v (Video.views v + (if Video.playing v then 0 else 1)) false.
Proof.
  intros Hr Hlt. unfold play_and_pause, Video.play, Video.pause.
  destruct (Video.playing v) eqn:E; cbn [negb fst].
  - rewrite E. cbn [fst]. rewrite Z.add_0_r. reflexivity.
  - cbn [Video.set_playback Video.playing fst Video.views Video.id Video.title
         Video.uploader Video.durationSec Video.comments].
    rewrite wrap64_succ by assumption. reflexivity.
Qed.

Lemma play_playlist_absent ids : forall (videos : gmap Z Video.t) k,
  videos !! k = None -> play_playlist ids videos !! k = None.
Proof.
  induction ids as [|vid ids IH]; intros videos k Hk; [exact Hk |].
  cbn [play_playlist]. destruct (videos !! vid) as [w|] eqn:E; [| apply IH; exact Hk].
  apply IH. rewrite lookup_insert_ne; [exact Hk | congruence].
Qed.

Lemma play_playlist_lookup ids : forall (videos : gmap Z Video.t) k v,
  videos !! k = Some v ->
  in_int64 (Video.views v) ->
  Video.views v + Z.of_nat (count_occ Z.eq_dec ids k) <= LLONG_MAX ->
  play_playlist ids videos !! k =
    Some match count_occ Z.eq_dec ids k with
         | O => v
         | S _ =>
             Video.set_playback v
               (Video.views v + Z.of_nat (count_occ Z.eq_dec ids k)
                  - (if Video.playing v then 1 else 0))
               false
         end.
Proof.
  induction ids as [|vid ids IH]; intros videos k v Hk Hr Hb; [exact Hk |].
  cbn [play_playlist count_occ] in *.
  destruct (Z.eq_dec vid k) as [-> | Hne].
  - rewrite Hk.
    assert (Hlt : Video.views v < LLONG_MAX) by lia.
    pose proof (play_and_pause_spec v Hr Hlt) as Hpp.
    set (b := if Video.playing v then 0 else 1) in *.
    assert (Hb01 : 0 <= b <= 1) by (subst b; destruct (Video.playing v); lia).
    assert (Hviews : Video.views (play_and_pause v) = Video.views v + b)
      by (rewrite Hpp; reflexivity).
    assert (Hpaused : Video.playing (play_and_pause v) = false)
      by (rewrite Hpp; reflexivity).
    rewrite (IH (<[k := play_and_pause v]> videos) k (play_and_pause v)
               (lookup_insert_eq _ _ _)).
    + rewrite Hviews, Hpaused. f_equal.
      assert (Hb' : (if Video.playing v then 1 else 0) = 1 - b)
        by (subst b; destruct (Video.playing v); reflexivity).
      rewrite Hb'.
      destruct (count_occ Z.eq_dec ids k) as [|n] eqn:En.
      * rewrite Hpp. f_equal. lia.
      * rewrite Hpp, set_playback_twice. f_equal. lia.
    + rewrite Hviews. unfold in_int64 in *. lia.
    + rewrite Hviews. lia.
  - destruct (videos !! vid) as [w|] eqn:E.
    + apply IH; [| assumption | assumption].
      rewrite lookup_insert_ne by assumption. exact Hk.
    + apply IH; assumption.
Qed.

(** X10.  Playing a playlist from the menu rewrites only the videos it
    lists: a video listed [n > 0] times ends paused, whatever its state
    was, with [n] more views if it was paused and [n - 1] more if it was
    playing (its first [play()] is then rejected); its identifier, title,
    uploader, duration and comments are untouched; a video that is not
    listed is unchanged, and no entry is added to or dropped from the
    registry. *)
Theorem play_playlist_counts_views
    (ids : list Z) (videos : gmap Z Video.t) (k : Z) (v : Video.t)
    (Hk : videos !! k = Some v)
    (Hrange : in_int64 (Video.views v))
    (Hbound : Video.views v + Z.of_nat (count_occ Z.eq_dec ids k) <= LLONG_MAX) :
  let n := count_occ Z.eq_dec ids k in
  (forall j, videos !! j = None -> play_playlist ids videos !! j = None) /\
  (~ In k ids -> play_playlist ids videos !! k = Some v) /\
  (In k ids ->
     exists v', play_playlist ids videos !! k = Some v' /\
       Video.playing v' = false /\
       Video.views v' = Video.views v + Z.of_nat n - (if Video.playing v then 1 else 0) /\
       Video.set_playback v' (Video.views v) (Video.playing v) = v).
Proof.
  cbv zeta. pose proof (play_playlist_lookup ids videos k v Hk Hrange Hbound) as H.
  split; [intros j Hj; apply play_playlist_absent; exact Hj | split].
  - intros Hnot. apply (count_occ_not_In Z.eq_dec) in Hnot. rewrite Hnot in H. exact H.
  - intros Hin. apply (count_occ_In Z.eq_dec) in Hin.
    destruct (count_occ Z.eq_dec ids k) as [|n]; [lia |].
    eexists. split; [exact H |]. cbn [Video.set_playback Video.playing Video.views].
    split; [reflexivity | split; [reflexivity | destruct v; reflexivity]].
Qed.

Lemma play_playlist_counts_views_witness :
  let v1 := fst (Video.make "C++ OOP Deep Dive" "KavyaTech" 900 0) in
  let v3 := fst (Video.play (fst (Video.make "Chill Loops" "IndieMusic" 300 2))) in
  let videos : gmap Z Video.t := <[1 := v1]> (<[3 := v3]> ∅) in
  let after := play_playlist [1; 7; 3; 1] videos in
  (Video.views <$> after !! 1) = Some 2 /\
  (Video.views <$> after !! 3) = Some 1 /\
  (Video.playing <$> after !! 3) = Some false /\
  after !! 7 = None.
Proof.
  intros v1 v3 videos after.
  assert (H1 : videos !! 1 = Some v1) by reflexivity.
  assert (H3 : videos !! 3 = Some v3) by reflexivity.
  assert (Hr1 : in_int64 (Video.views v1)) by (unfold in_int64; split; discriminate).
  assert (Hr3 : in_int64 (Video.views v3)) by (unfold in_int64; split; discriminate).
  destruct (play_playlist_counts_views [1; 7; 3; 1] videos 1 v1 H1 Hr1 ltac:(discriminate))
    as (Habs & _ & Hin1).
  destruct (play_playlist_counts_views [1; 7; 3; 1] videos 3 v3 H3 Hr3 ltac:(discriminate))
    as (_ & _ & Hin3).
  destruct Hin1 as (w1 & Hw1 & _ & Hv1 & _); [left; reflexivity |].
  destruct Hin3 as (w3 & Hw3 & Hp3 & Hv3 & _); [right; right; left; reflexivity |].
  subst after. rewrite Hw1, Hw3. cbn [fmap option_fmap option_map].
  rewrite Hv1, Hv3, Hp3.
  split; [reflexivity | split; [reflexivity | split; [reflexivity |]]].
  apply Habs; reflexivity.
Defined.

(** ** Watching from the menu *)

Lemma play_id v : Video.id (fst (Video.play v)) = Video.id v.
Proof. unfold Video.play. destruct (Video.playing v); reflexivity. Qed.

Lemma play_idempotent v : fst (Video.play (fst (Video.play v))) = fst (Video.play v).
Proof.
  rewrite (play_playing (fst (Video.play v))) by apply play_then_playing. reflexivity.
Qed.

(** The effect of the branch on the registry and on the user. *)
Lemma cmd_watch_effect vid current (videos : gmap Z Video.t) :
  fst (cmd_watch vid current videos) =
    match videos !! vid with
    | None => (current, videos)
    | Some v =>
        (match current with
         | Some u =>
             Some (User.mk (User.username u) (User.subscriptions u)
                           (User.historyIds u ++ [Video.id v]) (User.playlists u))
         | None => None
         end,
         <[vid := fst (Video.play v)]> videos)
    end.
Proof.
  unfold cmd_watch. destruct (videos !! vid) as [v|]; [| reflexivity].
  destruct current as [u|].
  - rewrite watch_some. reflexivity.
  - destruct (Video.play v); reflexivity.
Qed.

Lemma cmd_watch_all_lookup vids : forall current (videos : gmap Z Video.t) k v,
  videos !! k = Some v ->
  snd (cmd_watch_all vids current videos) !! k =
    Some (if existsb (Z.eqb k) vids then fst (Video.play v) else v).
Proof.
  induction vids as [|vid vids IH]; intros current videos k v Hk; [exact Hk |].
  cbn [cmd_watch_all existsb].
  pose proof (cmd_watch_effect vid current videos) as He.
  destruct (cmd_watch vid current videos) as [[current' videos'] out].
  cbn [fst] in He. destruct (Z.eqb_spec k vid) as [<- | Hne]; cbn [orb].
  - rewrite Hk in He. injection He as _ ->.
    rewrite (IH _ _ k (fst (Video.play v)) (lookup_insert_eq _ _ _)).
    rewrite play_idempotent. destruct (existsb _ _); reflexivity.
  - destruct (videos !! vid) as [w|].
    + injection He as _ ->. apply IH. rewrite lookup_insert_ne by congruence. exact Hk.
    + injection He as _ ->. apply IH. exact Hk.
Qed.

Lemma cmd_watch_all_absent vids : forall current (videos : gmap Z Video.t) j,
  videos !! j = None -> snd (cmd_watch_all vids current videos) !! j = None.
Proof.
  induction vids as [|vid vids IH]; intros current videos j Hj; [exact Hj |].
  cbn [cmd_watch_all].
  pose proof (cmd_watch_effect vid current videos) as He.
  destruct (cmd_watch vid current videos) as [[current' videos'] out].
  cbn [fst] in He. destruct (videos !! vid) as [w|] eqn:E.
  - injection He as _ ->. apply IH. rewrite lookup_insert_ne; [exact Hj | congruence].
  - injection He as _ ->. apply IH. exact Hj.
Qed.

(** X11.  Watching from the menu counts a video at most once: however
    many times, and by whomever, a registered video is watched, it ends
    as one [play()] leaves it, that is playing and with one more view
    only if it was paused before the first watch; a video that is not
    watched is unchanged, and no entry is added to the registry. *)
Theorem watching_counts_at_most_once
    (vids : list Z) (current : option User.t) (videos : gmap Z Video.t)
    (k : Z) (v : Video.t) (Hk : videos !! k = Some v) :
  let after := snd (cmd_watch_all vids current videos) in
  (~ In k vids -> after !! k = Some v) /\
  (In k vids ->
     after !! k = Some (fst (Video.play v)) /\
     Video.playing (fst (Video.play v)) = true /\
     (in_int64 (Video.views v) -> Video.views v < LLONG_MAX ->
        Video.views (fst (Video.play v)) =
          Video.views v + (if Video.playing v then 0 else 1))) /\
  (forall j, videos !! j = None -> after !! j = None).
Proof.
  cbv zeta. pose proof (cmd_watch_all_lookup vids current videos k v Hk) as H.
  split; [| split].
  - intros Hnot. rewrite H.
    destruct (existsb (Z.eqb k) vids) eqn:E; [| reflexivity].
    apply existsb_exists in E as (x & Hx & Hkx). apply Z.eqb_eq in Hkx. subst x.
    contradiction.
  - intros Hin. split; [| split].
    + rewrite H. replace (existsb (Z.eqb k) vids) with true; [reflexivity |].
      symmetry. apply existsb_exists. exists k. split; [exact Hin | apply Z.eqb_refl].
    + apply play_then_playing.
    + intros Hr Hlt. unfold Video.play. destruct (Video.playing v); cbn; [lia |].
      apply wrap64_succ; assumption.
  - intros j Hj. apply cmd_watch_all_absent. exact Hj.
Qed.

Lemma watching_counts_at_most_once_witness :
  let v1 := fst (Video.make "C++ OOP Deep Dive" "KavyaTech" 900 0) in
  let videos : gmap Z Video.t := <[1 := v1]> ∅ in
  let after := snd (cmd_watch_all [1; 1; 5; 1] (Some (User.make "alice")) videos) in
  (Video.views <$> after !! 1) = Some 1 /\ after !! 5 = None.
Proof.
  intros v1 videos after.
  destruct (watching_counts_at_most_once [1; 1; 5; 1] (Some (User.make "alice"))
              videos 1 v1 eq_refl) as (_ & Hin & Habs).
  destruct Hin as (Hw & _ & _); [left; reflexivity |].
  subst after. rewrite Hw. split; [reflexivity | apply Habs; reflexivity].
Defined.

Lemma cmd_watch_all_history vids : forall (videos : gmap Z Video.t) u,
  (forall k v, videos !! k = Some v -> Video.id v = k) ->
  exists u',
    fst (cmd_watch_all vids (Some u) videos) = Some u' /\
    User.historyIds u' =
      (User.historyIds u
         ++ List.filter (fun k => bool_decide (is_Some (videos !! k))) vids)%list /\
    User.username u' = User.username u /\
    User.subscriptions u' = User.subscriptions u /\
    User.playlists u' = User.playlists u.
Proof.
  induction vids as [|vid vids IH]; intros videos u Hkeys.
  - exists u. cbn. rewrite app_nil_r. repeat split.
  - cbn [cmd_watch_all List.filter].
    pose proof (cmd_watch_effect vid (Some u) videos) as He.
    destruct (cmd_watch vid (Some u) videos) as [[current' videos'] out].
    cbn [fst] in He. destruct (videos !! vid) as [w|] eqn:E.
    + injection He as -> ->.
      rewrite bool_decide_eq_true_2 by eauto.
      match goal with |- context [cmd_watch_all vids (Some ?u1) ?vs1] =>
        destruct (IH vs1 u1) as (u' & Hu & Hh & Hn & Hs & Hp) end.
      { intros k v. destruct (decide (vid = k)) as [<- | Hne].
        - rewrite lookup_insert_eq. intros [= <-]. rewrite play_id. apply Hkeys. exact E.
        - rewrite lookup_insert_ne by assumption. apply Hkeys. }
      exists u'. cbn [User.historyIds User.username User.subscriptions User.playlists] in *.
      split; [exact Hu | split; [| repeat split; assumption]].
      rewrite Hh, (Hkeys vid w E), <- app_assoc. cbn [app]. do 2 f_equal.
      apply List.filter_ext. intros k. apply bool_decide_ext.
      destruct (decide (vid = k)) as [<- | Hne].
      * rewrite lookup_insert_eq, E. split; eauto.
      * rewrite lookup_insert_ne by assumption. reflexivity.
    + injection He as -> ->.
      rewrite bool_decide_eq_false_2 by (intros [x Hx]; discriminate Hx).
      apply IH. exact Hkeys.
Qed.

(** X12.  The watch history is a log of what was watched from the menu:
    in a registry that stores every video under its own identifier, a
    logged-in user's history grows by the identifiers asked for that
    resolve, in order and with repetitions, whether or not the video was
    already playing; identifiers that do not resolve leave no trace; and
    the user's name, subscriptions and playlists are untouched. *)
Theorem watch_history_is_a_log
    (vids : list Z) (videos : gmap Z Video.t) (u : User.t)
    (Hkeys : forall k v, videos !! k = Some v -> Video.id v = k) :
  exists u',
    fst (cmd_watch_all vids (Some u) videos) = Some u' /\
    User.historyIds u' =
      (User.historyIds u
         ++ List.filter (fun k => bool_decide (is_Some (videos !! k))) vids)%list /\
    User.username u' = User.username u /\
    User.subscriptions u' = User.subscriptions u /\
    User.playlists u' = User.playlists u.
Proof. apply cmd_watch_all_history. exact Hkeys. Qed.

Lemma watch_history_is_a_log_witness :
  let v1 := fst (Video.make "C++ OOP Deep Dive" "KavyaTech" 900 0) in
  let videos : gmap Z Video.t := <[1 := v1]> ∅ in
  exists u',
    fst (cmd_watch_all [1; 5; 1] (Some (User.make "alice")) videos) = Some u' /\
    User.historyIds u' = [1; 1].
Proof.
  intros v1 videos.
  assert (Hkeys : forall k v, videos !! k = Some v -> Video.id v = k).
  { intros k v. subst videos. destruct (decide (1 = k)) as [<- | Hne].
    - rewrite lookup_insert_eq. intros [= <-]. reflexivity.
    - rewrite lookup_insert_ne by assumption. rewrite lookup_empty. discriminate. }
  destruct (watch_history_is_a_log [1; 5; 1] videos (User.make "alice") Hkeys)
    as (u' & Hu & Hh & _).
  exists u'. split; [exact Hu | rewrite Hh; reflexivity].
Defined.

(** ** Search: edge cases *)

Lemma starts_with_empty hay : starts_with EmptyString hay = true.
Proof. destruct hay; reflexivity. Qed.

Lemma starts_with_length needle : forall hay,
  starts_with needle hay = true -> (String.length needle <= String.length hay)%nat.
Proof.
  induction needle as [|a n IH]; intros hay H; cbn; [lia |].
  destruct hay as [|b h]; [discriminate H |]. cbn in *.
  apply andb_true_iff in H as [_ H]. apply IH in H. lia.
Qed.

Lemma find_from_length needle hay : forall pos,
  (String.length hay < String.length needle)%nat -> find_from needle hay pos = None.
Proof.
  induction hay as [|b h IH]; intros pos Hlen; cbn [find_from].
  - destruct (starts_with needle EmptyString) eqn:E; [| reflexivity].
    apply starts_with_length in E. lia.
  - destruct (starts_with needle (String b h)) eqn:E.
    + apply starts_with_length in E. lia.
    + apply IH. cbn in Hlen. lia.
Qed.

Lemma transform_length f s : String.length (transform f s) = String.length s.
Proof. induction s as [|a s IH]; cbn; [| rewrite IH]; reflexivity. Qed.

Lemma filter_all {A} (f : A -> bool) l :
  (forall x, In x l -> f x = true) -> List.filter f l = l.
Proof.
  induction l as [|a l IH]; intros H; [reflexivity |]. cbn [List.filter].
  rewrite (H a (or_introl eq_refl)), IH; [reflexivity |].
  intros x Hx. apply H. right. exact Hx.
Qed.

(** X13.  The empty query lists every video of the registry; a query
    longer than a title never lists the video that carries it. *)
Theorem search_edge_cases (videos : gmap Z Video.t) :
  search EmptyString videos = map_to_list videos /\
  (forall q k v,
     (String.length (Video.title v) < String.length q)%nat ->
     ~ In (k, v) (search q videos)).
Proof.
  split.
  - unfold search. apply filter_all. intros [k v] _.
    unfold title_matches, find. cbn [transform snd find_from].
    destruct (transform tolower (Video.title v)); reflexivity.
  - intros q k v Hlen Hin. apply search_In in Hin as [_ Hm].
    unfold title_matches, find in Hm. apply bool_decide_eq_true in Hm. apply Hm.
    apply find_from_length. rewrite !transform_length. exact Hlen.
Qed.

(** X14.  The case of the query does not matter: two queries that are
    equal up to the case of their letters list the same videos, in the
    same order. *)
Theorem search_ignores_query_case (q q' : string) (videos : gmap Z Video.t)
    (Hsame : eq_ignore_case q q') :
  search q videos = search q' videos.
Proof.
  unfold search. apply transform_tolower_eq in Hsame. rewrite Hsame. reflexivity.
Qed.

Lemma search_ignores_query_case_witness :
  let v1 := fst (Video.make "C++ OOP Deep Dive" "KavyaTech" 900 0) in
  let v3 := fst (Video.make "Chill Loops" "IndieMusic" 300 2) in
  let videos : gmap Z Video.t := <[3 := v3]> (<[1 := v1]> ∅) in
  search "OOP" videos = search "oOp" videos.
Proof.
  intros v1 v3 videos. apply search_ignores_query_case.
  repeat constructor; unfold same_letter; cbn; lia.
Defined.

(** ** Identifiers are consecutive *)

Lemma run_consecutive es : forall w,
  World_ok w -> counter w + Z.of_nat (creations es) <= LLONG_MAX ->
  let '(w', ids) := run es w in
  ids = map (fun i => counter w + Z.of_nat i) (seq 1 (length ids)) /\
  counter w' = counter w + Z.of_nat (length ids) /\
  (length ids <= creations es)%nat /\
  World_ok w'.
Proof.
  induction es as [|e es IH]; intros w Hok Hb.
  - cbn [run length seq map creations List.filter].
    split; [reflexivity | split; [lia | split; [lia | exact Hok]]].
  - cbn [run]. rewrite creations_cons in *. destruct (mints e) eqn:Hm.
    + assert (Hlt : counter w < LLONG_MAX) by lia.
      pose proof (step_mints e w Hok Hlt Hm) as Hstep.
      destruct (step e w) as [w1 [i|]].
      * destruct Hstep as (Hok1 & -> & Hc1 & _).
        specialize (IH w1 Hok1 ltac:(lia)).
        destruct (run es w1) as [w2 ids].
        destruct IH as (Hids & Hc2 & Hlen & Hok2).
        split; [| split; [| split; [| exact Hok2]]].
        -- cbn [length seq map]. rewrite <- (seq_shift (length ids) 1), map_map.
           f_equal; try lia. etransitivity; [exact Hids |].
           apply map_ext. intros j. lia.
        -- cbn [length]. lia.
        -- cbn [length]. lia.
      * destruct Hstep as (_ & ->).
        specialize (IH w Hok ltac:(lia)).
        destruct (run es w) as [w2 ids].
        destruct IH as (Hids & Hc2 & Hlen & Hok2).
        split; [exact Hids | split; [exact Hc2 | split; [lia | exact Hok2]]].
    + destruct e as [| | k cid rq own]; try discriminate.
      pose proof (step_remove w k cid rq own Hok) as Hstep.
      destruct (step (EvRemoveComment k cid rq own) w) as [w1 o].
      destruct Hstep as (Hok1 & -> & Hc1 & _).
      specialize (IH w1 Hok1 ltac:(lia)).
      destruct (run es w1) as [w2 ids].
      destruct IH as (Hids & Hc2 & Hlen & Hok2).
      rewrite Hc1 in *.
      split; [exact Hids | split; [exact Hc2 | split; [lia | exact Hok2]]].
Qed.

(** X15.  Identifiers are handed out without gaps and shared by videos
    and comments: along every history that constructs at most
    [LLONG_MAX] entities since process start, the identifiers minted are
    1, 2, 3, ... in this order, and the counter ends at their number;
    removals mint nothing and give no identifier back. *)
Theorem minted_ids_are_consecutive (es : list Event)
    (Hbound : Z.of_nat (creations es) <= LLONG_MAX) :
  let '(w, ids) := run es World_init in
  ids = map Z.of_nat (seq 1 (length ids)) /\
  counter w = Z.of_nat (length ids) /\
  (length ids <= creations es)%nat.
Proof.
  pose proof (run_consecutive es World_init World_init_ok) as H.
  cbn [World_init counter] in H. unfold IdGen.init in H. specialize (H ltac:(lia)).
  destruct (run es World_init) as [w ids].
  destruct H as (Hids & Hc & Hlen & _).
  split; [| split; [lia | exact Hlen]].
  etransitivity; [exact Hids |]. apply map_ext. intros i. lia.
Qed.

Lemma minted_ids_are_consecutive_witness :
  let es := [ EvNewVideo "V1" "C" 100;
              EvAddComment 0 "alice" "hi" 0;
              EvRemoveComment 0 2 "alice" "alice";
              EvAddComment 3 "bob" "nowhere" 0;
              EvAddComment 0 "bob" "again" 0 ] in
  snd (run es World_init) = [1; 2; 3] /\ counter (fst (run es World_init)) = 3.
Proof.
  intros es.
  assert (Hbound : Z.of_nat (creations es) <= LLONG_MAX) by (vm_compute; discriminate).
  pose proof (minted_ids_are_consecutive es Hbound) as H.
  destruct (run es World_init) as [w ids] eqn:E.
  destruct H as (Hids & Hc & _).
  assert (Hlen : length ids = 3%nat).
  { change ids with (snd (w, ids)). rewrite <- E. reflexivity. }
  cbn [fst snd]. rewrite Hc, Hids, Hlen. split; reflexivity.
Defined.

(** ** Accounts, sessions and subscriptions in the menu *)

(** What [subscribeChannel] does to the two sets when they agree. *)
Lemma subscribeChannel_sets (u : User.t) (ch : Channel.t) :
  (Channel.name ch ∈ User.subscriptions u <-> User.username u ∈ Channel.subscribers ch) ->
  let '(u', ch', r) := User.subscribeChannel ch u in
  User.subscriptions u' = {[Channel.name ch]} ∪ User.subscriptions u /\
  Channel.subscribers ch' = {[User.username u]} ∪ Channel.subscribers ch /\
  User.username u' = User.username u /\
  Channel.name ch' = Channel.name ch.
Proof.
  intros Hagree. unfold User.subscribeChannel.
  destruct (bool_decide (Channel.name ch ∈ User.subscriptions u)) eqn:E.
  - apply bool_decide_eq_true in E. cbn [negb].
    split; [set_solver | split; [set_solver | split; reflexivity]].
  - apply bool_decide_eq_false in E. cbn [negb].
    rewrite subscribe_new by (intros H; apply E, Hagree, H).
    cbn [User.subscriptions User.username Channel.set_subscribers Channel.subscribers
         Channel.name].
    split; [reflexivity | split; [reflexivity | split; reflexivity]].
Qed.

Lemma init_shape :
  exists k2 i1,
    Main.init = Main.mkState ∅ (<["IndieMusic" := i1]> (<["KavyaTech" := k2]> ∅)) None /\
    Channel.name k2 = "KavyaTech" /\ Channel.subscribers k2 = ∅ /\
    Channel.name i1 = "IndieMusic" /\ Channel.subscribers i1 = ∅.
Proof. eexists _, _. repeat split. Qed.

Lemma init_ok : Main.ok Main.init.
Proof.
  destruct init_shape as (k2 & i1 & -> & Hk & Hks & Hi & His).
  unfold Main.ok. cbn [Main.users Main.channels Main.current].
  split; [intros k u H; rewrite lookup_empty in H; discriminate H |].
  split.
  { intros k ch H. apply lookup_insert_Some in H as [[<- <-] | [_ H]]; [exact Hi |].
    apply lookup_insert_Some in H as [[<- <-] | [_ H]]; [exact Hk |].
    rewrite lookup_empty in H. discriminate H. }
  split; [intros k H; discriminate H |].
  split; [intros k u cn H; rewrite lookup_empty in H; discriminate H |].
  split.
  { intros cn ch k H Hin. exfalso.
    apply lookup_insert_Some in H as [[_ <-] | [_ H]]; [rewrite His in Hin; set_solver |].
    apply lookup_insert_Some in H as [[_ <-] | [_ H]]; [rewrite Hks in Hin; set_solver |].
    rewrite lookup_empty in H. discriminate H. }
  intros k u cn ch H. rewrite lookup_empty in H. discriminate H.
Qed.

Lemma exec_register_ok s uname : Main.ok s ->
  exists s' out, Main.exec (Main.Register uname) s = Some (s', out) /\ Main.ok s'.
Proof.
  intros Hok. cbn [Main.exec].
  destruct (Main.is_empty uname); [eauto |].
  destruct (Main.users s !! uname) as [u0|] eqn:E; [eauto |].
  eexists _, _. split; [reflexivity |].
  destruct Hok as (Hu & Hc & Hcur & Hsub & Hsubr & Hagree).
  unfold Main.ok. cbn [Main.users Main.channels Main.current].
  split; [| split; [exact Hc | split; [| split; [| split]]]].
  - intros k u H. apply lookup_insert_Some in H as [[<- <-] | [_ H]]; [reflexivity | eauto].
  - intros k Hk. apply lookup_insert_is_Some'. right. eauto.
  - intros k u cn H Hcn. apply lookup_insert_Some in H as [[<- <-] | [_ H]]; [| eauto].
    cbn in Hcn. set_solver.
  - intros cn ch k H Hk. apply lookup_insert_is_Some'. right. eauto.
  - intros k u cn ch H Hch. apply lookup_insert_Some in H as [[<- <-] | [_ H]]; [| eauto].
    cbn [User.make User.subscriptions]. split; [set_solver |].
    intros Hk. exfalso. destruct (Hsubr cn ch uname Hch Hk) as [x Hx]. congruence.
Qed.

Lemma exec_create_channel_ok s cname desc : Main.ok s ->
  exists s' out, Main.exec (Main.CreateChannel cname desc) s = Some (s', out) /\ Main.ok s'.
Proof.
  intros Hok. cbn [Main.exec]. unfold Main.pointee.
  destruct (Main.current s) as [k|] eqn:Ek; [| eauto].
  destruct (Main.is_empty cname); [eauto |].
  destruct (Main.channels s !! cname) as [c0|] eqn:E; [eauto |].
  destruct Hok as (Hu & Hc & Hcur & Hsub & Hsubr & Hagree).
  destruct (Hcur k Ek) as [u Huk]. rewrite Huk.
  eexists _, _. split; [reflexivity |].
  unfold Main.ok. cbn [Main.users Main.channels Main.current].
  split; [exact Hu | split; [| split; [| split; [| split]]]].
  - intros cn ch H. apply lookup_insert_Some in H as [[<- <-] | [_ H]]; [reflexivity | eauto].
  - intros k' Hk'. apply Hcur. congruence.
  - intros k' u' cn H Hcn. apply lookup_insert_is_Some'. right. eauto.
  - intros cn ch k' H Hk'. apply lookup_insert_Some in H as [[<- <-] | [_ H]]; [| eauto].
    cbn in Hk'. set_solver.
  - intros k' u' cn ch H Hch. apply lookup_insert_Some in Hch as [[<- <-] | [_ Hch]]; [| eauto].
    cbn [Channel.make Channel.subscribers]. split; [| set_solver].
    intros Hcn. exfalso. destruct (Hsub k' u' cname H Hcn) as [x Hx]. congruence.
Qed.

Lemma exec_subscribe_ok s cname : Main.ok s ->
  exists s' out, Main.exec (Main.Subscribe cname) s = Some (s', out) /\ Main.ok s'.
Proof.
  intros Hok. cbn [Main.exec].
  destruct (Main.current s) as [k|] eqn:Ek; [| eauto].
  destruct (Main.channels s !! cname) as [ch|] eqn:Ech; [| eauto].
  destruct Hok as (Hu & Hc & Hcur & Hsub & Hsubr & Hagree).
  destruct (Hcur k Ek) as [u Huk]. rewrite Huk.
  pose proof (subscribeChannel_sets u ch) as Hsets.
  pose proof (Hu k u Huk) as Hname. pose proof (Hc cname ch Ech) as Hcname.
  rewrite Hname, Hcname in Hsets. specialize (Hsets (Hagree k u cname ch Huk Ech)).
  destruct (User.subscribeChannel ch u) as [[u' ch'] r].
  destruct Hsets as (Hs' & Hr' & Hn' & Hc').
  eexists _, _. split; [reflexivity |].
  unfold Main.ok. cbn [Main.users Main.channels Main.current].
  split; [| split; [| split; [| split; [| split]]]].
  - intros k2 u2 H. apply lookup_insert_Some in H as [[<- <-] | [_ H]]; [congruence | eauto].
  - intros cn ch2 H. apply lookup_insert_Some in H as [[<- <-] | [_ H]]; [congruence | eauto].
  - intros k2 [= <-]. apply lookup_insert_is_Some'. left. reflexivity.
  - intros k2 u2 cn H Hcn. apply lookup_insert_is_Some'.
    destruct (decide (cname = cn)) as [-> | Hne]; [left; reflexivity | right].
    apply lookup_insert_Some in H as [[<- <-] | [_ H]]; [| eauto].
    rewrite Hs' in Hcn. apply (Hsub k u cn Huk). set_solver.
  - intros cn ch2 k2 H Hk2. apply lookup_insert_is_Some'.
    destruct (decide (k = k2)) as [-> | Hne]; [left; reflexivity | right].
    apply lookup_insert_Some in H as [[<- <-] | [_ H]]; [| eauto].
    rewrite Hr' in Hk2. apply (Hsubr cname ch k2 Ech). set_solver.
  - intros k2 u2 cn ch2 H Hch.
    apply lookup_insert_Some in H as [[<- <-] | [Hk2 H]];
      apply lookup_insert_Some in Hch as [[<- <-] | [Hcn Hch]].
    + rewrite Hs', Hr'. set_solver.
    + rewrite Hs'. rewrite <- (Hagree k u cn ch2 Huk Hch). set_solver.
    + rewrite Hr'. rewrite (Hagree k2 u2 cname ch H Ech). set_solver.
    + apply Hagree; assumption.
Qed.

Lemma exec_ok s c : Main.ok s ->
  exists s' out, Main.exec c s = Some (s', out) /\ Main.ok s'.
Proof.
  intros Hok. destruct c as [uname | uname | | cname desc | cname].
  - apply exec_register_ok. exact Hok.
  - cbn [Main.exec]. destruct (Main.users s !! uname) as [u|] eqn:E; [| eauto].
    eexists _, _. split; [reflexivity |].
    destruct Hok as (Hu & Hc & Hcur & Hsub & Hsubr & Hagree).
    unfold Main.ok. cbn [Main.users Main.channels Main.current].
    split; [exact Hu | split; [exact Hc | split; [| auto]]].
    intros k [= <-]. eauto.
  - cbn [Main.exec]. unfold Main.pointee.
    destruct (Main.current s) as [k|] eqn:Ek; [| eauto].
    destruct Hok as (Hu & Hc & Hcur & Hsub & Hsubr & Hagree).
    destruct (Hcur k Ek) as [u Huk]. rewrite Huk.
    eexists _, _. split; [reflexivity |].
    unfold Main.ok. cbn [Main.users Main.channels Main.current].
    split; [exact Hu | split; [exact Hc | split; [| auto]]].
    intros k' H. discriminate H.
  - apply exec_create_channel_ok. exact Hok.
  - apply exec_subscribe_ok. exact Hok.
Qed.

(** X16.  Whatever sequence of the commands register, login, logout,
    create channel and subscribe is typed after start-up, every branch
    has a result, that is, the session pointer never designates a user
    that does not exist; and in the state reached every user and every
    channel is stored under its own name, only existing channels are
    subscribed to and only registered users are subscribers, and the two
    sides of every subscription agree: a user holds a channel in their
    subscriptions exactly when the channel lists them as a subscriber. *)
Theorem menu_keeps_subscriptions_in_step (cs : list Main.Command) :
  exists s,
    Main.run cs Main.init = Some s /\
    Main.ok s /\
    (forall k u cn ch,
       Main.users s !! k = Some u -> Main.channels s !! cn = Some ch ->
       (Channel.name ch ∈ User.subscriptions u <->
        User.username u ∈ Channel.subscribers ch)).
Proof.
  assert (H : forall s0, Main.ok s0 -> exists s, Main.run cs s0 = Some s /\ Main.ok s).
  { induction cs as [|c cs IH]; intros s0 Hok; [exists s0; split; [reflexivity | exact Hok] |].
    cbn [Main.run]. destruct (exec_ok s0 c Hok) as (s1 & out & He & Hok1).
    rewrite He. apply IH. exact Hok1. }
  destruct (H Main.init init_ok) as (s & Hrun & Hok).
  exists s. split; [exact Hrun | split; [exact Hok |]].
  intros k u cn ch Hu Hch. destruct Hok as (Hku & Hkc & _ & _ & _ & Hagree).
  rewrite (Hku k u Hu), (Hkc cn ch Hch). apply Hagree; assumption.
Qed.

Lemma user_kept_refl u : user_kept u u.
Proof.
  unfold user_kept.
  split; [reflexivity | split; [reflexivity | split; reflexivity]].
Qed.

Lemma channel_kept_refl ch : channel_kept ch ch.
Proof.
  unfold channel_kept.
  split; [reflexivity | split; [reflexivity | split; [reflexivity | split; reflexivity]]].
Qed.

Lemma state_kept_refl s : state_kept s s.
Proof.
  split; intros k x H; exists x; (split; [exact H |]);
    [apply user_kept_refl | apply channel_kept_refl].
Qed.

Lemma state_kept_trans s1 s2 s3 : state_kept s1 s2 -> state_kept s2 s3 -> state_kept s1 s3.
Proof.
  intros [Hu12 Hc12] [Hu23 Hc23]. split.
  - intros k u H. destruct (Hu12 k u H) as (u2 & H2 & (Ha & Hb & Hc & Hd)).
    destruct (Hu23 k u2 H2) as (u3 & H3 & (Ha' & Hb' & Hc' & Hd')).
    exists u3. split; [exact H3 |]. unfold user_kept.
    split; [congruence | split; [congruence | split; [congruence | set_solver]]].
  - intros cn ch H. destruct (Hc12 cn ch H) as (c2 & H2 & (Ha & Hb & Hc & Hd & He)).
    destruct (Hc23 cn c2 H2) as (c3 & H3 & (Ha' & Hb' & Hc' & Hd' & He')).
    exists c3. split; [exact H3 |]. unfold channel_kept.
    split; [congruence | split; [congruence | split; [congruence | split; [congruence | set_solver]]]].
Qed.

Lemma subscribeChannel_kept u ch :
  let '(u', ch', _) := User.subscribeChannel ch u in
  user_kept u u' /\ channel_kept ch ch'.
Proof.
  unfold User.subscribeChannel, Channel.subscribe.
  destruct (negb (bool_decide (Channel.name ch ∈ User.subscriptions u)));
    [| split; [apply user_kept_refl | apply channel_kept_refl]].
  assert (Hu : user_kept u
            (User.mk (User.username u) ({[Channel.name ch]} ∪ User.subscriptions u)
                     (User.historyIds u) (User.playlists u))).
  { unfold user_kept. cbn.
    split; [reflexivity | split; [reflexivity | split; [reflexivity | set_solver]]]. }
  destruct (negb (bool_decide (User.username u ∈ Channel.subscribers ch)));
    (split; [exact Hu |]); [| apply channel_kept_refl].
  unfold channel_kept. cbn.
  split; [reflexivity | split; [reflexivity | split; [reflexivity | split; [reflexivity | set_solver]]]].
Qed.

Lemma exec_kept c s s' out : Main.exec c s = Some (s', out) -> state_kept s s'.
Proof.
  destruct c as [uname | uname | | cname desc | cname]; cbn [Main.exec]; intros H.
  - destruct (Main.is_empty uname); [injection H as <- _; apply state_kept_refl |].
    destruct (Main.users s !! uname) eqn:E; injection H as <- _; [apply state_kept_refl |].
    split; cbn [Main.users Main.channels].
    + intros k u Hk. exists u. split; [| apply user_kept_refl].
      rewrite lookup_insert_ne; [exact Hk | congruence].
    + intros cn ch Hc. exists ch. split; [exact Hc | apply channel_kept_refl].
  - destruct (Main.users s !! uname); injection H as <- _; [| apply state_kept_refl].
    split; cbn [Main.users Main.channels]; intros k x Hk; exists x;
      (split; [exact Hk |]); [apply user_kept_refl | apply channel_kept_refl].
  - destruct (Main.pointee s) as [[u|]|]; [| discriminate H |];
      injection H as <- _; [| apply state_kept_refl].
    split; cbn [Main.users Main.channels]; intros k x Hk; exists x;
      (split; [exact Hk |]); [apply user_kept_refl | apply channel_kept_refl].
  - destruct (Main.pointee s) as [p|]; [| injection H as <- _; apply state_kept_refl].
    destruct (Main.is_empty cname); [injection H as <- _; apply state_kept_refl |].
    destruct (Main.channels s !! cname) eqn:E; [injection H as <- _; apply state_kept_refl |].
    destruct p as [u|]; [| discriminate H]. injection H as <- _.
    split; cbn [Main.users Main.channels].
    + intros k x Hk. exists x. split; [exact Hk | apply user_kept_refl].
    + intros cn ch Hc. exists ch. split; [| apply channel_kept_refl].
      rewrite lookup_insert_ne; [exact Hc | congruence].
  - destruct (Main.current s) as [k|]; [| injection H as <- _; apply state_kept_refl].
    destruct (Main.channels s !! cname) as [ch|] eqn:Ec;
      [| injection H as <- _; apply state_kept_refl].
    destruct (Main.users s !! k) as [u|] eqn:Eu; [| discriminate H].
    pose proof (subscribeChannel_kept u ch) as Hk.
    destruct (User.subscribeChannel ch u) as [[u' ch'] r]. destruct Hk as [Hku Hkc].
    injection H as <- _. split; cbn [Main.users Main.channels].
    + intros k2 u2 H2. destruct (decide (k = k2)) as [<- | Hne].
      * rewrite lookup_insert_eq. exists u'. split; [reflexivity | congruence].
      * rewrite lookup_insert_ne by assumption. exists u2.
        split; [exact H2 | apply user_kept_refl].
    + intros cn ch2 H2. destruct (decide (cname = cn)) as [<- | Hne].
      * rewrite lookup_insert_eq. exists ch'. split; [reflexivity | congruence].
      * rewrite lookup_insert_ne by assumption. exists ch2.
        split; [exact H2 | apply channel_kept_refl].
Qed.

(** X17.  The menu never loses or rewrites an account or a channel: along
    any run of the commands register, login, logout, create channel and
    subscribe, every user stays registered under the same name with the
    same watch history and playlists, every channel stays with the same
    name, owner, description and uploads, and subscriptions and
    subscribers are only ever added. *)
Theorem menu_only_adds (cs : list Main.Command) (s s' : Main.State)
    (Hrun : Main.run cs s = Some s') :
  state_kept s s'.
Proof.
  revert s Hrun. induction cs as [|c cs IH]; intros s Hrun; cbn [Main.run] in Hrun.
  - injection Hrun as <-. apply state_kept_refl.
  - destruct (Main.exec c s) as [[s1 out]|] eqn:E; [| discriminate Hrun].
    eapply state_kept_trans; [eapply exec_kept; exact E | apply IH; exact Hrun].
Qed.

Lemma menu_only_adds_witness :
  let cs := [Main.Register "alice"; Main.Login "alice"; Main.Subscribe "KavyaTech";
             Main.Register "alice"; Main.CreateChannel "KavyaTech" "mine"; Main.Logout] in
  exists s',
    Main.run cs Main.init = Some s' /\
    state_kept Main.init s' /\
    exists ch, Main.channels s' !! "KavyaTech" = Some ch /\
               Channel.owner ch = "system" /\ length (Channel.uploads ch) = 2%nat.
Proof.
  intros cs.
  destruct (Main.run cs Main.init) as [s'|] eqn:E; [| discriminate E].
  exists s'. split; [reflexivity |].
  pose proof (menu_only_adds cs Main.init s' E) as Hkept.
  split; [exact Hkept |].
  destruct Hkept as [_ Hc].
  destruct (Hc "KavyaTech"
              (Channel.mk "KavyaTech" "system" "C++ tutorials"
                 [Video.mk 1 "C++ OOP Deep Dive" "KavyaTech" 900 0 false [];
                  Video.mk 2 "Data Structures Overview" "KavyaTech" 720 0 false []] ∅)
              eq_refl) as (ch & Hch & (_ & Ho & _ & Hup & _)).
  exists ch. split; [exact Hch | split; [rewrite Ho | rewrite Hup]; reflexivity].
Defined.
